(** * qTox chat log text formatter: [src/chatlog/textformatter.cpp]

    A shallow embedding of [highlightURL], [isTagIntersection] and
    [applyMarkdown], together with the regular expressions of the two rule
    tables, and the properties of the formatter established on it.

    Modelling choices.
    - A [QString] is the sequence of its UTF-16 code units ([QChar]s), each a
      number.  The matcher below works one code unit at a time; on
      well-formed text this agrees with the regular expression library for
      the patterns of this file, none of which can separate the two halves
      of a surrogate pair or tell them from other non-space characters.
    - [QRegularExpression] is an external library.  Its patterns are given
      as syntax trees ([regex]) and executed by a backtracking matcher
      ([run]) that follows the library's priorities: alternatives left to
      right, greedy quantifiers longest first, lazy ones shortest first,
      atomic lookarounds, captures undone on backtracking.
    - [int] positions and offsets are unbounded integers: a [QString] holds
      fewer than 2^31 code units, so the arithmetic of the source stays in
      range. *)

From Stdlib Require Import String Ascii.
From Stdlib Require Import List Bool Arith NArith ZArith Lia.
Import ListNotations.

(** ** Strings *)

Definition QChar := N.
Definition QString := list QChar.

(** A string literal of the source, as a [QString]. *)
Definition qs (t : string) : QString :=
  map N_of_ascii (list_ascii_of_string t).

Definition chr (a : ascii) : QChar := N_of_ascii a.

(** The double quote character, which the literals below cannot spell. *)
Definition dquote : QChar := 34%N.

Definition size (s : QString) : Z := Z.of_nat (length s).

(** [QString::mid(pos, n)] for a position inside the string. *)
Definition mid (s : QString) (pos n : nat) : QString :=
  firstn n (skipn pos s).

(** [QString::replace(int pos, int len, const QString &after)]: nothing
    happens when [pos] lies outside the string, and [len] is cut at the end
    of the string. *)
Definition replace (pos len : Z) (after s : QString) : QString :=
  if ((pos <? 0) || (size s <? pos))%Z then s
  else
    let len' := if (size s - pos <? len)%Z then (size s - pos)%Z else len in
    firstn (Z.to_nat pos) s ++ after ++ skipn (Z.to_nat (pos + len')) s.

(** [QString::arg(a)] on a template whose only place marker is [%1]: every
    occurrence of the marker is replaced by [a], and the inserted text is
    not scanned again. *)
Fixpoint arg (template a : QString) : QString :=
  match template with
  | [] => []
  | c :: rest =>
      match rest with
      | d :: rest' =>
          if ((c =? 37) && (d =? 49))%N then a ++ arg rest' a
          else c :: arg rest a
      | [] => [c]
      end
  end.

(** ** Character classes *)

Definition in_range (lo hi c : N) : bool := ((lo <=? c) && (c <=? hi))%N.

Definition is_char (a : ascii) (c : QChar) : bool := (c =? chr a)%N.

Definition LF : QChar := 10%N.
Definition is_newline (c : QChar) : bool := (c =? LF)%N.

(** [[a-zA-Z]] *)
Definition is_letter (c : QChar) : bool :=
  in_range 97 122 c || in_range 65 90 c.

(** [[0-9]] *)
Definition is_digit (c : QChar) : bool := in_range 48 57 c.

(** [[a-zA-Z0-9]] *)
Definition is_alnum (c : QChar) : bool := is_letter c || is_digit c.

(** [\w] without [UseUnicodePropertiesOption]: ASCII letters, digits and the
    underscore. *)
Definition is_word (c : QChar) : bool := is_alnum c || is_char "_" c.

(** [\s] without [UseUnicodePropertiesOption]: space, tab, line feed,
    vertical tab, form feed, carriage return. *)
Definition is_space_ascii (c : QChar) : bool :=
  in_range 9 13 c || (c =? 32)%N.

(** [\s] under [UseUnicodePropertiesOption]: the separators of Unicode
    with the horizontal and vertical white space characters. *)
Definition is_space (c : QChar) : bool :=
  in_range 9 13 c || (c =? 32)%N || (c =? 133)%N || (c =? 160)%N
  || (c =? 5760)%N || (c =? 6158)%N || in_range 8192 8202 c
  || (c =? 8232)%N || (c =? 8233)%N || (c =? 8239)%N || (c =? 8287)%N
  || (c =? 12288)%N.

(** [[\s\n]] in the markdown patterns. *)
Definition is_space_or_newline (c : QChar) : bool :=
  is_space c || is_newline c.

(** [.]: any character but a line feed. *)
Definition is_dot (c : QChar) : bool := negb (is_newline c).

(** ** Regular expressions *)

Inductive regex : Type :=
| Eps : regex
| Cls : (QChar -> bool) -> regex               (* one character of a class *)
| Seq : regex -> regex -> regex
| Alt : regex -> regex -> regex
| Star : bool -> regex -> regex                (* [true]: greedy *)
| Group : nat -> regex -> regex                (* capturing group *)
| Ahead : bool -> regex -> regex               (* [(?=r)] / [(?!r)] *)
| Behind : bool -> regex -> regex              (* [(?<=r)] / [(?<!r)] *)
| Bos : regex                                  (* [^] *)
| Eos : regex                                  (* [$] *)
| WordB : regex.                               (* [\b] *)

Declare Scope regex_scope.
Delimit Scope regex_scope with re.
Bind Scope regex_scope with regex.
Infix ";;" := Seq (at level 61, right associativity) : regex_scope.

(** [r+] and [r+?] *)
Definition Plus (greedy : bool) (r : regex) : regex := Seq r (Star greedy r).

(** [r?] *)
Definition Opt (r : regex) : regex := Alt r Eps.

(** [r{n}] *)
Fixpoint Times (n : nat) (r : regex) : regex :=
  match n with
  | O => Eps
  | S n' => Seq r (Times n' r)
  end.

(** A literal piece of pattern text. *)
Fixpoint lit_chars (l : QString) : regex :=
  match l with
  | [] => Eps
  | c :: l' => Seq (Cls (N.eqb c)) (lit_chars l')
  end.

Definition Lit (t : string) : regex := lit_chars (qs t).

(** ** The backtracking matcher *)

(** Captures: the most recent span of each group comes first. *)
Definition caps := list (nat * (nat * nat)).

Fixpoint get (n : nat) (c : caps) : option (nat * nat) :=
  match c with
  | [] => None
  | (m, v) :: c' => if Nat.eqb m n then Some v else get n c'
  end.

Definition outcome := (nat * caps)%type.
Definition cont := nat -> caps -> option outcome.

Definition orelse (x y : option outcome) : option outcome :=
  match x with
  | Some _ => x
  | None => y
  end.

Definition ret : cont := fun j c => Some (j, c).

(** Accept only a match that ends at [i]. *)
Definition ends_at (i : nat) : cont :=
  fun j c => if Nat.eqb j i then Some (j, c) else None.

(** The first success of [f] at [n], [n-1], ..., [0]. *)
Fixpoint scan_back (f : nat -> option outcome) (n : nat) : option outcome :=
  match f n with
  | Some r => Some r
  | None =>
      match n with
      | O => None
      | S n' => scan_back f n'
      end
  end.

Definition char_at (s : QString) (i : nat) : option QChar := nth_error s i.

(** [$]: the end of the subject, or just before a line feed that ends it. *)
Definition at_end (s : QString) (i : nat) : bool :=
  Nat.eqb i (length s)
  || (Nat.eqb (S i) (length s)
      && match char_at s i with Some c => is_newline c | None => false end).

Definition word_before (s : QString) (i : nat) : bool :=
  match i with
  | O => false
  | S i' => match char_at s i' with Some c => is_word c | None => false end
  end.

Definition word_here (s : QString) (i : nat) : bool :=
  match char_at s i with Some c => is_word c | None => false end.

(** [\b] *)
Definition word_boundary (s : QString) (i : nat) : bool :=
  xorb (word_before s i) (word_here s i).

(** The iterations of a quantifier whose body is matched by [body]: a
    greedy quantifier tries one more iteration before it goes on with the
    rest of the pattern, a lazy one after.  An iteration that matches the
    empty string ends the loop.  The fuel covers one iteration for every
    character that is left. *)
Fixpoint star_loop (body : nat -> caps -> cont -> option outcome)
  (greedy : bool) (k : cont) (fuel : nat) (i : nat) (c : caps)
  {struct fuel} : option outcome :=
  match fuel with
  | O => k i c
  | S fuel' =>
      let again :=
        body i c
          (fun j c' =>
             if Nat.ltb i j then star_loop body greedy k fuel' j c'
             else k j c') in
      if greedy then orelse again (k i c) else orelse (k i c) again
  end.

(** [run r s i c k] matches [r] in the subject [s] from position [i] with
    captures [c], and hands the end position and the captures to the
    continuation [k]; a [None] from [k] makes the matcher backtrack. *)
Fixpoint run (r : regex) (s : QString) (i : nat) (c : caps) (k : cont)
  {struct r} : option outcome :=
  match r with
  | Eps => k i c
  | Cls p =>
      match char_at s i with
      | Some ch => if p ch then k (S i) c else None
      | None => None
      end
  | Seq a b => run a s i c (fun j c' => run b s j c' k)
  | Alt a b => orelse (run a s i c k) (run b s i c k)
  | Star greedy a => star_loop (run a s) greedy k (S (length s - i)) i c
  | Group n a => run a s i c (fun j c' => k j ((n, (i, j)) :: c'))
  | Ahead positive a =>
      match run a s i c ret with
      | Some (_, c') => if positive then k i c' else None
      | None => if positive then None else k i c
      end
  | Behind positive a =>
      match scan_back (fun j => run a s j c (ends_at i)) i with
      | Some (_, c') => if positive then k i c' else None
      | None => if positive then None else k i c
      end
  | Bos => if Nat.eqb i 0 then k i c else None
  | Eos => if at_end s i then k i c else None
  | WordB => if word_boundary s i then k i c else None
  end.

(** ** Matches and the global match iterator *)

(** A [QRegularExpressionMatch]: the span of the whole match and the
    captures of the groups. *)
Record Match : Type := mkMatch {
  m_start : nat;
  m_end : nat;
  m_caps : caps
}.

(** One match attempt anchored at [i]. *)
Definition match_at (r : regex) (s : QString) (i : nat) : option Match :=
  match run r s i [] ret with
  | Some (j, c) => Some (mkMatch i j c)
  | None => None
  end.

(** The leftmost match that starts at [i] or later. *)
Fixpoint search (r : regex) (s : QString) (fuel i : nat) : option Match :=
  match fuel with
  | O => None
  | S fuel' =>
      match match_at r s i with
      | Some m => Some m
      | None => search r s fuel' (S i)
      end
  end.

Definition search_from (r : regex) (s : QString) (i : nat) : option Match :=
  search r s (S (length s) - i) i.

(** After an empty match the iterator first asks for a non-empty match
    anchored at the same position. *)
Definition match_nonempty_at (r : regex) (s : QString) (i : nat)
  : option Match :=
  match run r s i [] (fun j c => if Nat.ltb i j then Some (j, c) else None) with
  | Some (j, c) => Some (mkMatch i j c)
  | None => None
  end.

Definition next_match (r : regex) (s : QString) (from : nat)
  (prev_empty : bool) : option Match :=
  if prev_empty then
    match match_nonempty_at r s from with
    | Some m => Some m
    | None => search_from r s (S from)
    end
  else search_from r s from.

Fixpoint matches_from (r : regex) (s : QString) (fuel from : nat)
  (prev_empty : bool) : list Match :=
  match fuel with
  | O => []
  | S fuel' =>
      match next_match r s from prev_empty with
      | None => []
      | Some m =>
          m :: matches_from r s fuel' (m_end m) (Nat.eqb (m_end m) (m_start m))
      end
  end.

(** [exp.globalMatch(subject)], read to the end: the successive matches,
    left to right, all found in the subject as it was when the iterator was
    made. *)
Definition globalMatch (r : regex) (s : QString) : list Match :=
  matches_from r s (2 * length s + 2) 0 false.

(** [match.captured(nth)]: the text of the whole match for [nth = 0], of
    group [nth] otherwise; the null string when the group took no part. *)
Definition span (m : Match) (nth : nat) : option (nat * nat) :=
  match nth with
  | O => Some (m_start m, m_end m)
  | S _ => get nth (m_caps m)
  end.

Definition captured (s : QString) (m : Match) (nth : nat) : QString :=
  match span m nth with
  | Some (a, b) => mid s a (b - a)
  | None => []
  end.

(** [match.capturedStart()] and [match.capturedLength()] *)
Definition capturedStart (m : Match) : Z := Z.of_nat (m_start m).
Definition capturedLength (m : Match) : Z :=
  (Z.of_nat (m_end m) - Z.of_nat (m_start m))%Z.

(** ** The markdown rule table *)

Open Scope regex_scope.

(** [SINGLE_SIGN_PATTERN.arg(sign)]:
    [(?<=^|[\s\n])[%1](?!\s)([^%1\n]+?)(?<!\s)[%1](?=$|[\s\n])] *)
Definition SINGLE_SIGN_PATTERN (sign : QChar) : regex :=
  Behind true (Alt Bos (Cls is_space_or_newline)) ;;
  Cls (N.eqb sign) ;;
  Ahead false (Cls is_space) ;;
  Group 1 (Plus false (Cls (fun c => negb (N.eqb sign c || is_newline c)))) ;;
  Behind false (Cls is_space) ;;
  Cls (N.eqb sign) ;;
  Ahead true (Alt Eos (Cls is_space_or_newline)).

(** [(?<=^|[\s\n])/(?!\s)([^/\n]+?)(?<!\s)/(?=$|[\s\n])] *)
Definition SINGLE_SLASH_PATTERN : regex :=
  Behind true (Alt Bos (Cls is_space_or_newline)) ;;
  Lit "/" ;;
  Ahead false (Cls is_space) ;;
  Group 1 (Plus false (Cls (fun c => negb (is_char "/" c || is_newline c)))) ;;
  Behind false (Cls is_space) ;;
  Lit "/" ;;
  Ahead true (Alt Eos (Cls is_space_or_newline)).

(** [DOUBLE_SIGN_PATTERN.arg(sign)]:
    [(?<=^|[\s\n])[%1]{2}(?!\s)([^\n]+?)(?<!\s)[%1]{2}(?=$|[\s\n])] *)
Definition DOUBLE_SIGN_PATTERN (sign : QChar) : regex :=
  Behind true (Alt Bos (Cls is_space_or_newline)) ;;
  Times 2 (Cls (N.eqb sign)) ;;
  Ahead false (Cls is_space) ;;
  Group 1 (Plus false (Cls (fun c => negb (is_newline c)))) ;;
  Behind false (Cls is_space) ;;
  Times 2 (Cls (N.eqb sign)) ;;
  Ahead true (Alt Eos (Cls is_space_or_newline)).

(** [(?<=^|[\s\n])```(?!`)((.|\n)+?)(?<!`)```(?=$|[\s\n])] *)
Definition MULTILINE_CODE : regex :=
  Behind true (Alt Bos (Cls is_space_or_newline)) ;;
  Lit "```" ;;
  Ahead false (Cls (is_char "`")) ;;
  Group 1 (Plus false (Group 2 (Alt (Cls is_dot) (Cls is_newline)))) ;;
  Behind false (Cls (is_char "`")) ;;
  Lit "```" ;;
  Ahead true (Alt Eos (Cls is_space_or_newline)).

Definition REGEX_TO_WRAPPER : list (regex * QString) :=
  [ (SINGLE_SLASH_PATTERN, qs "<i>%1</i>");
    (SINGLE_SIGN_PATTERN (chr "*"), qs "<b>%1</b>");
    (SINGLE_SIGN_PATTERN (chr "_"), qs "<u>%1</u>");
    (SINGLE_SIGN_PATTERN (chr "~"), qs "<s>%1</s>");
    (SINGLE_SIGN_PATTERN (chr "`"),
       qs "<font color=#595959><code>%1</code></font>");
    (DOUBLE_SIGN_PATTERN (chr "*"), qs "<b>%1</b>");
    (DOUBLE_SIGN_PATTERN (chr "/"), qs "<i>%1</i>");
    (DOUBLE_SIGN_PATTERN (chr "_"), qs "<u>%1</u>");
    (DOUBLE_SIGN_PATTERN (chr "~"), qs "<s>%1</s>");
    (MULTILINE_CODE, qs "<font color=#595959><code>%1</code></font>") ].

(** ** The URL patterns *)

(** The template [<a href=%1>%1</a>], with the attribute value in double
    quotes. *)
Definition HREF_WRAPPER : QString :=
  qs "<a href=" ++ [dquote] ++ qs "%1" ++ [dquote] ++ qs ">%1</a>".

(** [URL_PATH_PATTERN], one character of it: [[\w:/?#\[\]@!$&'{}*+,;.~%=-]] *)
Definition is_url_path (c : QChar) : bool :=
  is_word c || existsb (N.eqb c) (qs ":/?#[]@!$&'{}*+,;.~%=-").

(** [\S] *)
Definition is_nonspace (c : QChar) : bool := negb (is_space_ascii c).

(** [[a-zA-Z\\d]] as the raw string literal spells it: a letter, a
    backslash or the letter d. *)
Definition is_tox_id_char (c : QChar) : bool :=
  is_letter c || is_char "\" c || is_char "d" c.

Definition URL_PATTERNS : list regex :=
  [ (* \b(www\.|((http[s]?)|ftp)://)[\w:/?#\[\]@!$&'{}*+,;.~%=-]+ *)
    WordB ;;
    Group 1 (Alt (Lit "www" ;; Cls (is_char "."))
                 (Group 2 (Alt (Group 3 (Lit "http" ;; Opt (Cls (is_char "s"))))
                               (Lit "ftp")) ;;
                  Lit "://")) ;;
    Plus true (Cls is_url_path);
    (* \b(file|smb):// and then, as group 2, [\S| ]* *)
    WordB ;;
    Group 1 (Alt (Lit "file") (Lit "smb")) ;;
    Lit "://" ;;
    Group 2 (Star true (Cls (fun c => is_nonspace c || is_char "|" c
                                      || is_char " " c)));
    (* \btox:[a-zA-Z\\d]{76} *)
    WordB ;; Lit "tox:" ;; Times 76 (Cls is_tox_id_char);
    (* \bmailto:\S+@\S+\.\S+ *)
    WordB ;; Lit "mailto:" ;; Plus true (Cls is_nonspace) ;; Lit "@" ;;
    Plus true (Cls is_nonspace) ;; Cls (is_char ".") ;;
    Plus true (Cls is_nonspace);
    (* \btox:\S+@\S+ *)
    WordB ;; Lit "tox:" ;; Plus true (Cls is_nonspace) ;; Lit "@" ;;
    Plus true (Cls is_nonspace) ].

(** ** [highlightURL] *)

(** The body of the [while] loop: one match of the current pattern. *)
Definition urlStep (subject : QString) (startLength : Z)
  (st : Z * QString) (m : Match) : Z * QString :=
  let '(offset, result) := st in
  let startPos := (capturedStart m + offset)%Z in
  let length := capturedLength m in
  let wrappedURL := arg HREF_WRAPPER (captured subject m 0) in
  let result' := replace startPos length wrappedURL result in
  ((size result' - startLength)%Z, result').

(** The body of the [for] loop: all the matches of one pattern, found in
    the result of the patterns before it. *)
Definition urlPass (result : QString) (exp : regex) : QString :=
  snd (fold_left (urlStep result (size result)) (globalMatch exp result)
         (0%Z, result)).

Definition highlightURL (message : QString) : QString :=
  fold_left urlPass URL_PATTERNS message.

(** ** [isTagIntersection] *)

(** [(?<=<)/?[a-zA-Z0-9]+(?=>)] *)
Definition TAG_PATTERN : regex :=
  Behind true (Cls (is_char "<")) ;;
  Opt (Cls (is_char "/")) ;;
  Plus true (Cls is_alnum) ;;
  Ahead true (Cls (is_char ">")).

(** [str[0]]; the strings indexed here are matches of [TAG_PATTERN] and so
    have a first character. *)
Definition first_char (str : QString) : QChar := hd 0%N str.

(** The body of the [while] loop; the state is
    [(openingTagCount, closingTagCount)]. *)
Definition countTag (str : QString) (st : Z * Z) (m : Match) : Z * Z :=
  let '(openingTagCount, closingTagCount) := st in
  if is_char "/" (first_char (captured str m 0))
  then (openingTagCount, (closingTagCount + 1)%Z)
  else ((openingTagCount + 1)%Z, closingTagCount).

Definition tagCounts (str : QString) : Z * Z :=
  fold_left (countTag str) (globalMatch TAG_PATTERN str) (0%Z, 0%Z).

Definition isTagIntersection (str : QString) : bool :=
  let '(openingTagCount, closingTagCount) := tagCounts str in
  negb (openingTagCount =? closingTagCount)%Z.

(** ** [applyMarkdown] *)

(** The argument of [match.captured(!showFormattingSymbols)]. *)
Definition capturedIndex (showFormattingSymbols : bool) : nat :=
  if negb showFormattingSymbols then 1 else 0.

(** The body of the [while] loop: one match of the current rule. *)
Definition markdownStep (subject wrapper : QString)
  (showFormattingSymbols : bool) (st : Z * QString) (m : Match)
  : Z * QString :=
  let '(offset, result) := st in
  let captured := captured subject m (capturedIndex showFormattingSymbols) in
  if isTagIntersection captured then (offset, result)
  else
    let length := capturedLength m in
    let wrappedText := arg wrapper captured in
    let startPos := (capturedStart m + offset)%Z in
    ((offset + (size wrappedText - length))%Z,
     replace startPos length wrappedText result).

(** The body of the [for] loop: all the matches of one rule. *)
Definition markdownPass (showFormattingSymbols : bool) (result : QString)
  (pair : regex * QString) : QString :=
  snd (fold_left (markdownStep result (snd pair) showFormattingSymbols)
         (globalMatch (fst pair) result) (0%Z, result)).

Definition applyMarkdown (message : QString) (showFormattingSymbols : bool)
  : QString :=
  fold_left (markdownPass showFormattingSymbols) REGEX_TO_WRAPPER message.

(** ** What a successful run of the matcher says about the subject *)

(** Iterations of a quantified expression: none, one that advances followed
    by more, or a last one that does not advance. *)
Inductive iter (P : nat -> caps -> nat -> caps -> Prop)
  : nat -> caps -> nat -> caps -> Prop :=
| iter_done : forall i c, iter P i c i c
| iter_step : forall i c m cm j c',
    P i c m cm -> i < m -> iter P m cm j c' -> iter P i c j c'
| iter_last : forall i c j c', P i c j c' -> j <= i -> iter P i c j c'.

(** [sem r s i c j c']: the expression [r] can match the subject [s] from
    position [i] to position [j], turning the captures [c] into [c'].
    Negative lookarounds are stated through the matcher itself. *)
Fixpoint sem (r : regex) (s : QString) (i : nat) (c : caps) (j : nat)
  (c' : caps) {struct r} : Prop :=
  match r with
  | Eps => j = i /\ c' = c
  | Cls p => exists ch, char_at s i = Some ch /\ p ch = true
                        /\ j = S i /\ c' = c
  | Seq a b => exists m cm, sem a s i c m cm /\ sem b s m cm j c'
  | Alt a b => sem a s i c j c' \/ sem b s i c j c'
  | Star _ a => iter (sem a s) i c j c'
  | Group n a => exists c1, sem a s i c j c1 /\ c' = (n, (i, j)) :: c1
  | Ahead true a => j = i /\ exists j', sem a s i c j' c'
  | Ahead false a => j = i /\ c' = c /\ run a s i c ret = None
  | Behind true a => j = i /\ exists j0, j0 <= i /\ sem a s j0 c i c'
  | Behind false a =>
      j = i /\ c' = c
      /\ scan_back (fun j0 => run a s j0 c (ends_at i)) i = None
  | Bos => i = 0 /\ j = i /\ c' = c
  | Eos => at_end s i = true /\ j = i /\ c' = c
  | WordB => word_boundary s i = true /\ j = i /\ c' = c
  end.

(** ** The words of the specification, for comparison with the code *)

(** A tag name that ends at a [>]: a run of one or more letters or digits
    with [>] right after it. *)
Fixpoint is_name_then_gt (l : QString) : bool :=
  match l with
  | [] => false
  | c :: l' =>
      is_alnum c
      && (match l' with d :: _ => is_char ">" d | [] => false end
          || is_name_then_gt l')
  end.

(** The text after a [<] is a token that starts with [/]. *)
Definition is_closing_token (l : QString) : bool :=
  match l with
  | c :: l' => is_char "/" c && is_name_then_gt l'
  | [] => false
  end.

(** The text after a [<] is a token that does not start with [/]. *)
Definition is_opening_token (l : QString) : bool := is_name_then_gt l.

(** The number of [<] in [text] that have a token of the given kind right
    after them. *)
Fixpoint count_tokens (kind : QString -> bool) (text : QString) : nat :=
  match text with
  | [] => 0
  | c :: rest =>
      (if is_char "<" c && kind rest then 1 else 0) + count_tokens kind rest
  end.

Definition closing_tokens (text : QString) : nat :=
  count_tokens is_closing_token text.

Definition opening_tokens (text : QString) : nat :=
  count_tokens is_opening_token text.

(** ** Vocabulary of the properties *)

(** Some attempt to match [r] in [s] succeeds, at whatever position. *)
Definition matches_somewhere (r : regex) (s : QString) : bool :=
  existsb (fun i => match match_at r s i with Some _ => true | None => false end)
    (seq 0 (S (length s))).

(** The character before position [i]. *)
Definition char_before (s : QString) (i : nat) : option QChar :=
  match i with
  | O => None
  | S i' => char_at s i'
  end.

(** Position [i] has the start of the string or white space before it. *)
Definition open_boundary (s : QString) (i : nat) : Prop :=
  i = 0 \/ exists ch, char_before s i = Some ch /\ is_space_or_newline ch = true.

(** Position [j] has the end of the string or white space after it. *)
Definition close_boundary (s : QString) (j : nat) : Prop :=
  j = length s
  \/ exists ch, char_at s j = Some ch /\ is_space_or_newline ch = true.

(** The length of the longest run of characters of class [p] that starts
    the text [l]. *)
Fixpoint run_length (p : QChar -> bool) (l : QString) : nat :=
  match l with
  | c :: l' => if p c then S (run_length p l') else 0
  | [] => 0
  end.

(** What the four patterns of the table share: a delimiter of [d]
    characters with the right surroundings on either side of group 1. *)
Definition delimited (d : nat) (s : QString) (i j : nat) (c' : caps) : Prop :=
  open_boundary s i /\ close_boundary s j
  /\ get 1 c' = Some (i + d, j - d) /\ i + 2 * d < j.

(** The number of delimiter characters on each side of a match of rule
    [n] of the table: one for the five single-sign rules, two for the four
    double-sign rules, three for the code fence. *)
Definition delimiter_length (n : nat) : nat :=
  if n <? 5 then 1 else if n <? 9 then 2 else 3.

(** The text starts with [>]. *)
Definition gt_first (l : QString) : bool :=
  match l with
  | d :: _ => is_char ">" d
  | [] => false
  end.

(** Where the match of [TAG_PATTERN] that starts at [i] ends, read off the
    subject: there is a [<] before [i], and at [i] a closing or an opening
    token. *)
Definition tag_end (s : QString) (i : nat) : option nat :=
  match char_before s i with
  | Some b =>
      if is_char "<" b then
        if is_closing_token (skipn i s)
        then Some (S i + run_length is_alnum (skipn (S i) s))
        else if is_opening_token (skipn i s)
             then Some (i + run_length is_alnum (skipn i s))
             else None
      else None
  | None => None
  end.

(** ** Vocabulary of the further properties *)

(** The text [s] from position [from] on, with the spans of [edits]
    replaced; the edits come in order, each as the start and the end of a
    span of [s] and the text to put in its place. *)
Fixpoint splice (s : QString) (from : nat)
  (edits : list (nat * nat * QString)) : QString :=
  match edits with
  | [] => skipn from s
  | (st, en, w) :: rest => mid s from (st - from) ++ w ++ splice s en rest
  end.

(** What [highlightURL] does with one match: the span becomes its anchor. *)
Definition urlEdit (subject : QString) (m : Match) : nat * nat * QString :=
  (m_start m, m_end m, arg HREF_WRAPPER (captured subject m 0)).

(** The match passes the guard of [applyMarkdown]. *)
Definition accepted (subject : QString) (showFormattingSymbols : bool)
  (m : Match) : bool :=
  negb (isTagIntersection
          (captured subject m (capturedIndex showFormattingSymbols))).

(** What [applyMarkdown] does with one accepted match. *)
Definition markdownEdit (subject wrapper : QString)
  (showFormattingSymbols : bool) (m : Match) : nat * nat * QString :=
  (m_start m, m_end m,
   arg wrapper (captured subject m (capturedIndex showFormattingSymbols))).

(** The matches come one after the other, from [from] on and inside the
    first [bound] characters. *)
Fixpoint in_order (from bound : nat) (ms : list Match) : Prop :=
  match ms with
  | [] => True
  | m :: ms' =>
      from <= m_start m /\ m_start m <= m_end m /\ m_end m <= bound
      /\ in_order (m_end m) bound ms'
  end.

(** [a] is what is left of [b] when some of its characters are taken
    out. *)
Inductive subseq : QString -> QString -> Prop :=
| subseq_nil : forall b, subseq [] b
| subseq_keep : forall x a b, subseq a b -> subseq (x :: a) (x :: b)
| subseq_drop : forall x a b, subseq a b -> subseq a (x :: b).

(** The least number of characters that a match of [r] takes. *)
Fixpoint min_width (r : regex) : nat :=
  match r with
  | Cls _ => 1
  | Seq a b => min_width a + min_width b
  | Alt a b => Nat.min (min_width a) (min_width b)
  | Group _ a => min_width a
  | _ => 0
  end.

(** The characters that open and close the spans of the markdown rules. *)
Definition markdown_signs : QString := qs "/*_~`".

(** Rule [n] of the table wraps its text as code: the rules of the single
    backtick and of the code fence. *)
Definition is_code_rule (n : nat) : bool := Nat.eqb n 4 || Nat.eqb n 9.

(** The sum of the lengths that the anchors add, one anchor per match. *)
Fixpoint anchors_growth (ms : list Match) : nat :=
  match ms with
  | [] => 0
  | m :: ms' => (m_end m - m_start m) + 15 + anchors_growth ms'
  end.

(** The part of a wrapper template before the place marker [%1], and the
    part after it. *)
Fixpoint before_marker (template : QString) : QString :=
  match template with
  | [] => []
  | c :: rest =>
      match rest with
      | d :: _ =>
          if ((c =? 37) && (d =? 49))%N then [] else c :: before_marker rest
      | [] => [c]
      end
  end.

Fixpoint after_marker (template : QString) : QString :=
  match template with
  | [] => []
  | c :: rest =>
      match rest with
      | d :: rest' =>
          if ((c =? 37) && (d =? 49))%N then rest' else after_marker rest
      | [] => []
      end
  end.

(** The sign stands at position [i]. *)
Definition sign_first (sign : QChar) (s : QString) (i : nat) : Prop :=
  char_at s i = Some sign.

(** No line feed between the positions [i] and [j]. *)
Definition one_line (s : QString) (i j : nat) : Prop :=
  forall x, i <= x < j ->
            exists ch, char_at s x = Some ch /\ is_newline ch = false.

(** The number of characters that one replacement of rule [n] adds. *)
Definition markdown_gain (n : nat) (pair : regex * QString)
  (showFormattingSymbols : bool) : nat :=
  length (snd pair) - 2
  - (if showFormattingSymbols then 0 else 2 * delimiter_length n).

(* ================================================================== *)
(** * Properties *)

Ltac sem_inv :=
  repeat match goal with
    | H : exists _, _ |- _ => destruct H
    | H : _ /\ _ |- _ => destruct H
    | H : _ \/ _ |- _ => destruct H
    end.


(** ** Lists and strings *)

Lemma char_at_skipn (s : QString) (i : nat) :
  char_at s i = hd_error (skipn i s).
Proof.
  unfold char_at. revert s; induction i as [|i IH]; intros [|x s]; simpl; auto.
Qed.

Lemma char_at_lt (s : QString) (i : nat) (ch : QChar) :
  char_at s i = Some ch -> i < length s.
Proof.
  unfold char_at; intros H. apply nth_error_Some. congruence.
Qed.

Lemma char_at_In (s : QString) (i : nat) (ch : QChar) :
  char_at s i = Some ch -> In ch s.
Proof. unfold char_at; apply nth_error_In. Qed.

Lemma size_le (a b : QString) : (size a <= size b)%Z -> length a <= length b.
Proof. unfold size. lia. Qed.

Lemma mid_length (s : QString) (a n : nat) :
  a + n <= length s -> length (mid s a n) = n.
Proof.
  intros H. unfold mid. rewrite length_firstn, length_skipn. lia.
Qed.

Lemma replace_size (pos len : Z) (after s : QString) :
  (0 <= len <= size after)%Z -> (size s <= size (replace pos len after s))%Z.
Proof.
  intros H. unfold replace.
  destruct ((pos <? 0) || (size s <? pos))%Z eqn:E; [lia|].
  apply orb_false_iff in E. destruct E as [E1 E2].
  apply Z.ltb_ge in E1, E2.
  unfold size in *.
  rewrite !length_app, length_firstn, length_skipn.
  destruct (Z.of_nat (length s) - pos <? len)%Z eqn:E3;
    [apply Z.ltb_lt in E3 | apply Z.ltb_ge in E3]; lia.
Qed.

(** ** Soundness of the matcher *)

Lemma scan_back_some (f : nat -> option outcome) (n : nat) (r : outcome) :
  scan_back f n = Some r -> exists j, j <= n /\ f j = Some r.
Proof.
  induction n as [|n IH]; simpl; intros H.
  - destruct (f 0) eqn:E; [|discriminate]. exists 0. split; [lia|congruence].
  - destruct (f (S n)) eqn:E.
    + exists (S n). split; [lia|congruence].
    + destruct (IH H) as (j & Hj & Hf). exists j. split; [lia|assumption].
Qed.

Lemma orelse_some (x y : option outcome) (r : outcome) :
  orelse x y = Some r -> x = Some r \/ y = Some r.
Proof. destruct x; simpl; auto. Qed.

Lemma star_loop_sound (body : nat -> caps -> cont -> option outcome)
  (P : nat -> caps -> nat -> caps -> Prop) :
  (forall i c k res,
      body i c k = Some res -> exists j c', P i c j c' /\ k j c' = Some res) ->
  forall g k fuel i c res,
    star_loop body g k fuel i c = Some res ->
    exists j c', iter P i c j c' /\ k j c' = Some res.
Proof.
  intros Hbody g k fuel.
  induction fuel as [|fuel IH]; intros i c res H; simpl in H.
  - exists i, c. split; [apply iter_done|exact H].
  - assert (Hagain :
      forall x, body i c
        (fun j c' => if Nat.ltb i j then star_loop body g k fuel j c'
                     else k j c') = Some x ->
        exists j c', iter P i c j c' /\ k j c' = Some x).
    { intros x Hx. apply Hbody in Hx. destruct Hx as (m & cm & Ha & Hx).
      destruct (Nat.ltb i m) eqn:Elt.
      - apply Nat.ltb_lt in Elt. apply IH in Hx.
        destruct Hx as (j & c' & Hit & Hx).
        exists j, c'. split; [|assumption].
        eapply iter_step; eauto.
      - apply Nat.ltb_ge in Elt. exists m, cm. split; [|assumption].
        apply iter_last; assumption. }
    assert (Hstop : forall x, k i c = Some x ->
              exists j c', iter P i c j c' /\ k j c' = Some x).
    { intros x Hx. exists i, c. split; [apply iter_done|assumption]. }
    destruct g; apply orelse_some in H; destruct H as [H|H]; auto.
Qed.

Lemma run_sound (r : regex) :
  forall s i c k res,
    run r s i c k = Some res ->
    exists j c', sem r s i c j c' /\ k j c' = Some res.
Proof.
  induction r as [ | p | a IHa b IHb | a IHa b IHb | g a IHa | n a IHa
                 | pos a IHa | pos a IHa | | | ];
    intros s i c k res H; simpl in H.
  - exists i, c. simpl. auto.
  - destruct (char_at s i) as [ch|] eqn:E; [|discriminate].
    destruct (p ch) eqn:Ep; [|discriminate].
    exists (S i), c. split; [|assumption]. simpl. exists ch. auto.
  - apply IHa in H. destruct H as (m & cm & Ha & H).
    apply IHb in H. destruct H as (j & c' & Hb & H).
    exists j, c'. split; [|assumption]. simpl. exists m, cm. auto.
  - apply orelse_some in H. destruct H as [H|H].
    + apply IHa in H. destruct H as (j & c' & Ha & H).
      exists j, c'. simpl. auto.
    + apply IHb in H. destruct H as (j & c' & Hb & H).
      exists j, c'. simpl. auto.
  - change (star_loop (run a s) g k (S (length s - i)) i c = Some res) in H.
    apply (star_loop_sound (run a s) (sem a s) (IHa s)) in H. exact H.
  - apply IHa in H. destruct H as (j & c' & Ha & H).
    exists j, ((n, (i, j)) :: c'). split; [|assumption]. simpl. exists c'. auto.
  - destruct (run a s i c ret) as [[j0 c0]|] eqn:E.
    + destruct pos; [|discriminate].
      apply IHa in E. destruct E as (j & c' & Ha & E).
      unfold ret in E. injection E as -> ->.
      exists i, c0. split; [|assumption]. simpl. split; [reflexivity|].
      exists j0. assumption.
    + destruct pos; [discriminate|].
      exists i, c. split; [|assumption]. simpl. auto.
  - destruct (scan_back (fun j => run a s j c (ends_at i)) i)
      as [[j0 c0]|] eqn:E.
    + destruct pos; [|discriminate].
      apply scan_back_some in E. destruct E as (j1 & Hj1 & E).
      apply IHa in E. destruct E as (j & c' & Ha & E).
      unfold ends_at in E. destruct (Nat.eqb j i) eqn:Eji; [|discriminate].
      apply Nat.eqb_eq in Eji. subst j. injection E as <- <-.
      exists i, c'. split; [|assumption]. simpl. split; [reflexivity|].
      exists j1. auto.
    + destruct pos; [discriminate|].
      exists i, c. split; [|assumption]. simpl. auto.
  - destruct (Nat.eqb i 0) eqn:E; [|discriminate]. apply Nat.eqb_eq in E.
    exists i, c. simpl. auto.
  - destruct (at_end s i) eqn:E; [|discriminate].
    exists i, c. simpl. auto.
  - destruct (word_boundary s i) eqn:E; [|discriminate].
    exists i, c. simpl. auto.
Qed.

(** A match goes forward and stays inside the subject. *)
Lemma sem_bounds (r : regex) :
  forall s i c j c',
    sem r s i c j c' -> i <= j /\ (i <= length s -> j <= length s).
Proof.
  induction r as [ | p | a IHa b IHb | a IHa b IHb | g a IHa | n a IHa
                 | pos a IHa | pos a IHa | | | ];
    intros s i c j c' H; simpl in H.
  - destruct H; subst; auto.
  - destruct H as (ch & Hch & _ & -> & _). apply char_at_lt in Hch. lia.
  - destruct H as (m & cm & Ha & Hb).
    apply IHa in Ha. apply IHb in Hb. lia.
  - destruct H as [H|H]; [apply IHa in H | apply IHb in H]; assumption.
  - induction H as [i c | i c m cm j c' Hp Hlt _ IH | i c j c' Hp Hle].
    + auto.
    + apply IHa in Hp. lia.
    + apply IHa in Hp. lia.
  - destruct H as (c1 & Ha & _). apply IHa in Ha. assumption.
  - destruct pos; destruct H as (-> & _); auto.
  - destruct pos; destruct H as (-> & _); auto.
  - destruct H as (_ & -> & _); auto.
  - destruct H as (_ & -> & _); auto.
  - destruct H as (_ & -> & _); auto.
Qed.

(** ** The match iterator *)

Lemma match_at_sem (r : regex) (s : QString) (i : nat) (m : Match) :
  match_at r s i = Some m ->
  m_start m = i /\ sem r s i [] (m_end m) (m_caps m).
Proof.
  unfold match_at. intros H.
  destruct (run r s i [] ret) as [[j c]|] eqn:E; [|discriminate].
  injection H as <-. simpl.
  apply run_sound in E. destruct E as (j' & c' & Hs & E).
  unfold ret in E. injection E as -> ->. auto.
Qed.

Lemma match_nonempty_at_sem (r : regex) (s : QString) (i : nat) (m : Match) :
  match_nonempty_at r s i = Some m ->
  m_start m = i /\ sem r s i [] (m_end m) (m_caps m).
Proof.
  unfold match_nonempty_at. intros H.
  destruct (run r s i [] _) as [[j c]|] eqn:E; [|discriminate].
  injection H as <-. simpl.
  apply run_sound in E. destruct E as (j' & c' & Hs & E).
  destruct (Nat.ltb i j'); [|discriminate].
  injection E as -> ->. auto.
Qed.

Lemma search_some (r : regex) (s : QString) (fuel : nat) :
  forall i m,
    search r s fuel i = Some m ->
    i <= m_start m < i + fuel
    /\ match_at r s (m_start m) = Some m
    /\ forall x, i <= x < m_start m -> match_at r s x = None.
Proof.
  induction fuel as [|fuel IH]; intros i m H; simpl in H; [discriminate|].
  destruct (match_at r s i) as [m'|] eqn:E.
  - injection H as ->. destruct (match_at_sem _ _ _ _ E) as [Hst _].
    rewrite Hst. split; [lia|split; [assumption|intros x Hx; lia]].
  - apply IH in H. destruct H as (Hr & Hm & Hn).
    split; [lia|split; [assumption|]].
    intros x Hx. destruct (Nat.eq_dec x i) as [->|Hne]; [assumption|].
    apply Hn. lia.
Qed.

Lemma search_none (r : regex) (s : QString) (fuel : nat) :
  forall i,
    (forall x, i <= x < i + fuel -> match_at r s x = None) ->
    search r s fuel i = None.
Proof.
  induction fuel as [|fuel IH]; intros i H; simpl; [reflexivity|].
  rewrite (H i) by lia. apply IH. intros x Hx. apply H. lia.
Qed.

Lemma next_match_sem (r : regex) (s : QString) (from : nat) (pe : bool)
  (m : Match) :
  from <= length s ->
  next_match r s from pe = Some m ->
  from <= m_start m <= length s
  /\ sem r s (m_start m) [] (m_end m) (m_caps m).
Proof.
  intros Hfrom H. unfold next_match, search_from in H.
  assert (Hsearch : forall i, from <= i ->
            search r s (S (length s) - i) i = Some m ->
            from <= m_start m <= length s
            /\ sem r s (m_start m) [] (m_end m) (m_caps m)).
  { intros i Hi Hs. apply search_some in Hs. destruct Hs as (Hr & Hm & _).
    apply match_at_sem in Hm. destruct Hm as [_ Hm]. split; [lia|assumption]. }
  destruct pe.
  - destruct (match_nonempty_at r s from) as [m'|] eqn:E.
    + injection H as ->. apply match_nonempty_at_sem in E.
      destruct E as [Hst Hs]. rewrite Hst in *. split; [lia|assumption].
    + apply Hsearch in H; [assumption|lia].
  - apply Hsearch in H; [assumption|lia].
Qed.

(** Every match that the iterator yields is a match of the pattern inside
    the subject. *)
Lemma matches_from_sem (r : regex) (s : QString) (fuel : nat) :
  forall from pe m,
    from <= length s ->
    In m (matches_from r s fuel from pe) ->
    m_start m <= m_end m <= length s
    /\ sem r s (m_start m) [] (m_end m) (m_caps m).
Proof.
  induction fuel as [|fuel IH]; intros from pe m Hfrom H; simpl in H;
    [contradiction|].
  destruct (next_match r s from pe) as [m0|] eqn:E; [|contradiction].
  apply next_match_sem in E; [|assumption]. destruct E as [Hr Hs].
  pose proof (sem_bounds _ _ _ _ _ _ Hs) as Hb.
  destruct H as [<-|H].
  - split; [lia|assumption].
  - apply IH in H; [assumption|lia].
Qed.

Lemma globalMatch_sem (r : regex) (s : QString) (m : Match) :
  In m (globalMatch r s) ->
  m_start m <= m_end m <= length s
  /\ sem r s (m_start m) [] (m_end m) (m_caps m).
Proof. unfold globalMatch. apply matches_from_sem. lia. Qed.

Lemma globalMatch_nil (r : regex) (s : QString) :
  matches_somewhere r s = false -> globalMatch r s = [].
Proof.
  unfold matches_somewhere, globalMatch. intros H.
  assert (Hnone : forall x, x <= length s -> match_at r s x = None).
  { intros x Hx.
    destruct (match_at r s x) eqn:E; [|reflexivity].
    assert (Hex : existsb
              (fun i => match match_at r s i with
                        | Some _ => true
                        | None => false
                        end) (seq 0 (S (length s))) = true).
    { apply existsb_exists. exists x. split; [apply in_seq; lia|].
      rewrite E. reflexivity. }
    congruence. }
  replace (2 * length s + 2) with (S (2 * length s + 1)) by lia.
  cbn [matches_from next_match]. unfold search_from.
  rewrite search_none; [reflexivity|].
  intros x Hx. apply Hnone. lia.
Qed.

(** ** The shape of a markdown match *)

Lemma at_end_close (s : QString) (j : nat) :
  at_end s j = true -> close_boundary s j.
Proof.
  unfold at_end, close_boundary. intros H.
  apply orb_true_iff in H. destruct H as [H|H].
  - left. apply Nat.eqb_eq. assumption.
  - right. apply andb_true_iff in H. destruct H as [_ H].
    destruct (char_at s j) as [ch|]; [|discriminate].
    exists ch. split; [reflexivity|].
    unfold is_space_or_newline. rewrite H. apply orb_true_r.
Qed.

Lemma iter_le (P : nat -> caps -> nat -> caps -> Prop) :
  (forall i c j c', P i c j c' -> i <= j) ->
  forall i c j c', iter P i c j c' -> i <= j.
Proof.
  intros HP i c j c' H.
  induction H as [i c | i c m cm j c' Hp Hlt _ IH | i c j c' Hp Hle].
  - lia.
  - lia.
  - apply HP in Hp. assumption.
Qed.

(** The lookbehind [(?<=^|[\s\n])] *)
Lemma sem_open (s : QString) (i : nat) (c : caps) (j : nat) (c' : caps) :
  sem (Behind true (Alt Bos (Cls is_space_or_newline))) s i c j c' ->
  j = i /\ c' = c /\ open_boundary s i.
Proof.
  cbn [sem]. intros H. unfold open_boundary. sem_inv; subst; auto.
  repeat split; auto. right. simpl. eauto.
Qed.

(** The lookahead [(?=$|[\s\n])] *)
Lemma sem_close (s : QString) (i : nat) (c : caps) (j : nat) (c' : caps) :
  sem (Ahead true (Alt Eos (Cls is_space_or_newline))) s i c j c' ->
  j = i /\ c' = c /\ close_boundary s i.
Proof.
  cbn [sem]. intros H. sem_inv; subst; auto using at_end_close.
  repeat split; auto. right. eauto.
Qed.

Lemma sem_SINGLE_SIGN (sign : QChar) (s : QString) (i j : nat) (c' : caps) :
  sem (SINGLE_SIGN_PATTERN sign) s i [] j c' -> delimited 1 s i j c'.
Proof.
  unfold SINGLE_SIGN_PATTERN, Plus. intros H.
  cbn [sem] in H.
  destruct H as (m1 & c1 & Hopen & m2 & c2 & Hd1 & m3 & c3 & Hna & m4 & c4
                 & Hgrp & m5 & c5 & Hnb & m6 & c6 & Hd2 & Hclose).
  apply sem_open in Hopen. apply sem_close in Hclose.
  destruct Hgrp as (c0 & (m7 & c7 & Hfirst & Hrest) & ->).
  apply iter_le in Hrest; [|intros x cx y cy Hx; sem_inv; subst; lia].
  sem_inv; subst. unfold delimited. repeat split; auto.
  - simpl. f_equal. f_equal; lia.
  - lia.
Qed.

Lemma sem_SINGLE_SLASH (s : QString) (i j : nat) (c' : caps) :
  sem SINGLE_SLASH_PATTERN s i [] j c' -> delimited 1 s i j c'.
Proof.
  unfold SINGLE_SLASH_PATTERN, Plus, Lit.
  change (qs "/") with [47%N]. intros H.
  cbn [sem lit_chars] in H.
  destruct H as (m1 & c1 & Hopen & m2 & c2 & Hd1 & m3 & c3 & Hna & m4 & c4
                 & Hgrp & m5 & c5 & Hnb & m6 & c6 & Hd2 & Hclose).
  apply sem_open in Hopen. apply sem_close in Hclose.
  destruct Hgrp as (c0 & (m7 & c7 & Hfirst & Hrest) & ->).
  apply iter_le in Hrest; [|intros x cx y cy Hx; sem_inv; subst; lia].
  sem_inv; subst. unfold delimited. repeat split; auto.
  - simpl. f_equal. f_equal; lia.
  - lia.
Qed.

Lemma sem_DOUBLE_SIGN (sign : QChar) (s : QString) (i j : nat) (c' : caps) :
  sem (DOUBLE_SIGN_PATTERN sign) s i [] j c' -> delimited 2 s i j c'.
Proof.
  unfold DOUBLE_SIGN_PATTERN, Plus. intros H.
  cbn [sem Times] in H.
  destruct H as (m1 & c1 & Hopen & m2 & c2 & Hd1 & m3 & c3 & Hna & m4 & c4
                 & Hgrp & m5 & c5 & Hnb & m6 & c6 & Hd2 & Hclose).
  apply sem_open in Hopen. apply sem_close in Hclose.
  destruct Hgrp as (c0 & (m7 & c7 & Hfirst & Hrest) & ->).
  apply iter_le in Hrest; [|intros x cx y cy Hx; sem_inv; subst; lia].
  sem_inv; subst. unfold delimited. repeat split; auto.
  - simpl. f_equal. f_equal; lia.
  - lia.
Qed.

Lemma sem_MULTILINE_CODE (s : QString) (i j : nat) (c' : caps) :
  sem MULTILINE_CODE s i [] j c' -> delimited 3 s i j c'.
Proof.
  unfold MULTILINE_CODE, Plus, Lit.
  change (qs "```") with [96%N; 96%N; 96%N]. intros H.
  cbn [sem lit_chars] in H.
  destruct H as (m1 & c1 & Hopen & m2 & c2 & Hd1 & m3 & c3 & Hna & m4 & c4
                 & Hgrp & m5 & c5 & Hnb & m6 & c6 & Hd2 & Hclose).
  apply sem_open in Hopen. apply sem_close in Hclose.
  destruct Hgrp as (c0 & (m7 & c7 & Hfirst & Hrest) & ->).
  apply iter_le in Hrest;
    [|intros x cx y cy Hx; sem_inv; subst; lia].
  sem_inv; subst; unfold delimited; repeat split; auto;
    try (simpl; f_equal; f_equal; lia); try lia.
Qed.

Lemma rule_delimited (n : nat) (pair : regex * QString) (s : QString)
  (i j : nat) (c' : caps) :
  nth_error REGEX_TO_WRAPPER n = Some pair ->
  sem (fst pair) s i [] j c' ->
  delimited (delimiter_length n) s i j c'.
Proof.
  intros Hn H.
  do 10 (destruct n as [|n];
         [ injection Hn as <-; cbn [fst] in H;
           first [ apply sem_SINGLE_SLASH in H | apply sem_SINGLE_SIGN in H
                 | apply sem_DOUBLE_SIGN in H | apply sem_MULTILINE_CODE in H ];
           exact H | ]).
  destruct n; discriminate.
Qed.

(** ** Lengths of the wrapped texts *)

Lemma arg_HREF_WRAPPER (a : QString) :
  arg HREF_WRAPPER a
  = qs "<a href=" ++ [dquote] ++ a ++ [dquote] ++ qs ">" ++ a ++ qs "</a>".
Proof. reflexivity. Qed.

Lemma arg_HREF_WRAPPER_length (a : QString) :
  length (arg HREF_WRAPPER a) = 2 * length a + 15.
Proof.
  rewrite arg_HREF_WRAPPER. rewrite !length_app. simpl. lia.
Qed.

Lemma wrapper_length (n : nat) (pair : regex * QString) (a : QString) :
  nth_error REGEX_TO_WRAPPER n = Some pair ->
  length a + 7 <= length (arg (snd pair) a).
Proof.
  intros Hn.
  do 10 (destruct n as [|n];
         [ injection Hn as <-; cbn [snd];
           match goal with
           | |- _ <= length (arg (qs ?t) a) =>
               let x := eval vm_compute in (qs t) in change (qs t) with x
           end;
           cbn [arg N.eqb Pos.eqb andb]; cbn [length];
           rewrite length_app; cbn [length]; lia | ]).
  destruct n; discriminate.
Qed.

Lemma captured_whole_length (s : QString) (m : Match) :
  m_start m <= m_end m <= length s ->
  size (captured s m 0) = capturedLength m.
Proof.
  intros H. unfold captured, capturedLength, size. cbn [span].
  rewrite mid_length by lia. lia.
Qed.

Lemma captured_group_length (d : nat) (s : QString) (m : Match) :
  m_end m <= length s ->
  delimited d s (m_start m) (m_end m) (m_caps m) ->
  (size (captured s m 1) = capturedLength m - 2 * Z.of_nat d)%Z.
Proof.
  intros Hb (_ & _ & Hg & Hlt).
  unfold captured, capturedLength, size. cbn [span]. rewrite Hg.
  rewrite mid_length by lia. lia.
Qed.

(** ** The passes never shorten the text *)

Lemma urlStep_size (subject : QString) (startLength : Z) (st : Z * QString)
  (m : Match) :
  m_start m <= m_end m <= length subject ->
  (size (snd st) <= size (snd (urlStep subject startLength st m)))%Z.
Proof.
  intros Hb. destruct st as [offset result]. cbn [urlStep snd].
  apply replace_size.
  pose proof (@captured_whole_length subject m Hb) as Hc.
  unfold size in *. rewrite arg_HREF_WRAPPER_length.
  unfold capturedLength in *. lia.
Qed.

Lemma urlPass_length (result : QString) (exp : regex) :
  length result <= length (urlPass result exp).
Proof.
  unfold urlPass.
  assert (H : forall ms st,
             (forall m, In m ms -> m_start m <= m_end m <= length result) ->
             (size (snd st)
              <= size (snd (fold_left (urlStep result (size result)) ms st)))%Z).
  { induction ms as [|m ms IH]; intros st Hms; cbn [fold_left]; [lia|].
    pose proof (@urlStep_size result (size result) st m
                  (Hms m (or_introl eq_refl))) as H1.
    pose proof (IH (urlStep result (size result) st m)
                  (fun m' Hm' => Hms m' (or_intror Hm'))) as H2.
    lia. }
  specialize (H (globalMatch exp result) (0%Z, result)
                (fun m Hm => proj1 (globalMatch_sem _ _ _ Hm))).
  apply size_le. exact H.
Qed.

Lemma markdownStep_size (n : nat) (pair : regex * QString)
  (subject : QString) (show : bool) (st : Z * QString) (m : Match) :
  nth_error REGEX_TO_WRAPPER n = Some pair ->
  m_start m <= m_end m <= length subject ->
  sem (fst pair) subject (m_start m) [] (m_end m) (m_caps m) ->
  (size (snd st) <= size (snd (markdownStep subject (snd pair) show st m)))%Z.
Proof.
  intros Hn Hb Hs. destruct st as [offset result]. unfold markdownStep.
  destruct (isTagIntersection _); cbn [snd]; [lia|].
  apply replace_size.
  pose proof (@wrapper_length n pair
                (captured subject m (capturedIndex show)) Hn) as Hw.
  pose proof (@rule_delimited n pair _ _ _ _ Hn Hs) as Hd.
  assert (Hdl : delimiter_length n <= 3).
  { unfold delimiter_length.
    destruct (n <? 5); [lia|]. destruct (n <? 9); lia. }
  destruct show; cbn [capturedIndex negb] in *.
  - pose proof (@captured_whole_length subject m Hb) as Hc.
    unfold size, capturedLength in *. lia.
  - pose proof (@captured_group_length _ subject m (proj2 Hb) Hd) as Hc.
    unfold size, capturedLength in *. lia.
Qed.

Lemma markdownPass_length (show : bool) (result : QString)
  (pair : regex * QString) :
  In pair REGEX_TO_WRAPPER ->
  length result <= length (markdownPass show result pair).
Proof.
  intros Hin. apply In_nth_error in Hin. destruct Hin as [n Hn].
  unfold markdownPass.
  assert (H : forall ms st,
             (forall m, In m ms ->
                m_start m <= m_end m <= length result
                /\ sem (fst pair) result (m_start m) [] (m_end m) (m_caps m)) ->
             (size (snd st)
              <= size (snd (fold_left (markdownStep result (snd pair) show)
                              ms st)))%Z).
  { induction ms as [|m ms IH]; intros st Hms; cbn [fold_left]; [lia|].
    destruct (Hms m (or_introl eq_refl)) as [Hb Hs].
    pose proof (@markdownStep_size n pair result show st m Hn Hb Hs) as H1.
    pose proof (IH (markdownStep result (snd pair) show st m)
                  (fun m' Hm' => Hms m' (or_intror Hm'))) as H2.
    lia. }
  specialize (H (globalMatch (fst pair) result) (0%Z, result)
                (fun m Hm => globalMatch_sem _ _ _ Hm)).
  apply size_le. exact H.
Qed.

Lemma fold_left_length_le (A : Type) (f : QString -> A -> QString)
  (l : list A) :
  (forall s x, In x l -> length s <= length (f s x)) ->
  forall s, length s <= length (fold_left f l s).
Proof.
  induction l as [|x l IH]; intros Hf s; cbn [fold_left]; [lia|].
  pose proof (Hf s x (or_introl eq_refl)) as H1.
  pose proof (IH (fun s' y Hy => Hf s' y (or_intror Hy)) (f s x)) as H2.
  lia.
Qed.

(** C9: neither [highlightURL] nor [applyMarkdown] ever shortens its input:
    the result is at least as long as the message, whatever the message and
    the flag, since every replacement puts a longer text in the place of the
    matched one and everything else is left as it is. *)
Theorem formatting_never_shortens (message : QString) (showFormattingSymbols : bool) :
  length message <= length (highlightURL message)
  /\ length message
     <= length (applyMarkdown message showFormattingSymbols).
Proof.
  split.
  - unfold highlightURL. apply fold_left_length_le.
    intros s exp _. apply urlPass_length.
  - unfold applyMarkdown. apply fold_left_length_le.
    intros s pair Hin. apply markdownPass_length. assumption.
Qed.

(** ** Text without markdown *)

Lemma fold_left_fixed (A : Type) (f : QString -> A -> QString) (l : list A)
  (s : QString) :
  (forall x, In x l -> f s x = s) -> fold_left f l s = s.
Proof.
  induction l as [|x l IH]; intros Hf; cbn [fold_left]; [reflexivity|].
  rewrite (Hf x (or_introl eq_refl)).
  apply IH. intros y Hy. apply Hf. right. assumption.
Qed.

Lemma markdownPass_no_match (show : bool) (s : QString)
  (pair : regex * QString) :
  matches_somewhere (fst pair) s = false -> markdownPass show s pair = s.
Proof.
  intros H. unfold markdownPass. rewrite (globalMatch_nil _ _ H). reflexivity.
Qed.

(** C7: a string in which no pattern of the markdown rule table matches
    anywhere is returned unchanged by [applyMarkdown], with the formatting
    symbols shown or not. *)
Theorem applyMarkdown_without_markdown (s : QString) :
  (forall pair, In pair REGEX_TO_WRAPPER ->
                matches_somewhere (fst pair) s = false) ->
  applyMarkdown s false = s /\ applyMarkdown s true = s.
Proof.
  intros H. unfold applyMarkdown.
  split; apply fold_left_fixed; intros pair Hin;
    apply markdownPass_no_match; apply H; assumption.
Qed.

Lemma applyMarkdown_without_markdown_witness :
  applyMarkdown (qs "2 * 3 / 4 ~ a_b") false = qs "2 * 3 / 4 ~ a_b"
  /\ applyMarkdown (qs "2 * 3 / 4 ~ a_b") true = qs "2 * 3 / 4 ~ a_b".
Proof.
  apply (applyMarkdown_without_markdown (qs "2 * 3 / 4 ~ a_b")).
  intros pair H. unfold REGEX_TO_WRAPPER in H.
  repeat (destruct H as [<-|H]; [vm_compute; reflexivity|]).
  contradiction.
Defined.

(** ** The tag-intersection guard *)

Lemma is_char_eq (a : ascii) (c : QChar) : is_char a c = true -> c = chr a.
Proof. unfold is_char. apply N.eqb_eq. Qed.

Lemma sem_TAG_PATTERN_brackets (s : QString) (i : nat) (c : caps) (j : nat)
  (c' : caps) :
  sem TAG_PATTERN s i c j c' -> In (chr "<") s /\ In (chr ">") s.
Proof.
  unfold TAG_PATTERN. cbn [sem]. intros H.
  destruct H as (m1 & c1 & (_ & j0 & _ & ch1 & Hch1 & Hlt & _) & m2 & c2 & _
                 & m3 & c3 & _ & _ & j' & ch2 & Hch2 & Hgt & _).
  apply is_char_eq in Hlt, Hgt. subst.
  split; eapply char_at_In; eassumption.
Qed.

Lemma matches_nowhere (r : regex) (s : QString) :
  (forall i, match_at r s i = None) -> matches_somewhere r s = false.
Proof.
  intros H. unfold matches_somewhere.
  destruct (existsb _ _) eqn:E; [|reflexivity].
  apply existsb_exists in E. destruct E as (i & _ & E).
  rewrite H in E. discriminate.
Qed.

Lemma isTagIntersection_no_brackets (str : QString) :
  ~ In (chr "<") str \/ ~ In (chr ">") str -> isTagIntersection str = false.
Proof.
  intros H. unfold isTagIntersection, tagCounts.
  rewrite globalMatch_nil; [reflexivity|].
  apply matches_nowhere. intros i.
  destruct (match_at TAG_PATTERN str i) as [m|] eqn:E; [|reflexivity].
  apply match_at_sem in E. destruct E as [_ E].
  apply sem_TAG_PATTERN_brackets in E. tauto.
Qed.

(** ** The boundary rule *)

Lemma rule_boundaries (pair : regex * QString) (s : QString) (m : Match) :
  In pair REGEX_TO_WRAPPER ->
  In m (globalMatch (fst pair) s) ->
  open_boundary s (m_start m) /\ close_boundary s (m_end m).
Proof.
  intros Hin Hm. apply In_nth_error in Hin. destruct Hin as [n Hn].
  apply globalMatch_sem in Hm. destruct Hm as [_ Hs].
  destruct (@rule_delimited n pair _ _ _ _ Hn Hs) as (Ho & Hc & _).
  auto.
Qed.

(** C4: a span is matched by a rule of the table only if its opening
    delimiter has the start of the string or white space before it and its
    closing delimiter has the end of the string or white space after it; a
    delimiter with anything else on its outside gives no match, and
    [a*bold*b] is returned as it is. *)
Theorem markdown_boundary_rule :
  (forall pair s m,
      In pair REGEX_TO_WRAPPER ->
      In m (globalMatch (fst pair) s) ->
      open_boundary s (m_start m) /\ close_boundary s (m_end m))
  /\ applyMarkdown (qs "a*bold*b") false = qs "a*bold*b".
Proof.
  split.
  - intros pair s m. apply rule_boundaries.
  - vm_compute. reflexivity.
Qed.

Lemma markdown_boundary_rule_witness :
  open_boundary (qs "say *bold* now") 4 /\ close_boundary (qs "say *bold* now") 10.
Proof.
  apply (proj1 markdown_boundary_rule
           (SINGLE_SIGN_PATTERN (chr "*"), qs "<b>%1</b>")
           (qs "say *bold* now")
           (mkMatch 4 10 [(1, (5, 9))])).
  - unfold REGEX_TO_WRAPPER. right. left. reflexivity.
  - vm_compute. left. reflexivity.
Defined.

(** ** Worked messages *)

(** C1, as the specification has it, fails: the text [a <b c] holds no tag
    token, the guard does not fire, and the span is replaced. *)
Lemma unclosed_bracket_is_wrapped :
  applyMarkdown (qs "*a <b c*") false <> qs "*a <b c*".
Proof. vm_compute. discriminate. Qed.

(** C1, amended: in [*a <b c*] the captured text [a <b c] has no name
    between [<] and [>], so [isTagIntersection] reports no imbalance and the
    span becomes bold; in [*a <b> c*] the captured text [a <b> c] has an
    opening token without a closing one, the guard fires, and the message
    is returned unchanged. *)
Theorem tag_guard_needs_closed_bracket :
  isTagIntersection (qs "a <b c") = false
  /\ applyMarkdown (qs "*a <b c*") false = qs "<b>a <b c</b>"
  /\ isTagIntersection (qs "a <b> c") = true
  /\ applyMarkdown (qs "*a <b> c*") false = qs "*a <b> c*".
Proof. vm_compute. repeat split. Qed.

(** C2 fails on a Tox identifier that has a digit in it: the class of the
    fixed-length pattern holds the letters and the backslash but no digit,
    and the message is returned without an anchor.  An identifier of 76
    letters is wrapped. *)
Theorem tox_id_with_digits_not_highlighted :
  highlightURL
    (qs "tox:56A1ADE4B65B86BCD51CC73E2CD4E542179F47959FE3E0E21B4B0ACDADE51855D34D34D37CB5")
  = qs "tox:56A1ADE4B65B86BCD51CC73E2CD4E542179F47959FE3E0E21B4B0ACDADE51855D34D34D37CB5"
  /\ highlightURL
       (qs "tox:ABCDEFGHIJKLMNOPQRSTUVWXYZabcdefghijklmnopqrstuvwxyzABCDEFGHIJKLMNOPQRSTUVWX")
     = arg HREF_WRAPPER
         (qs "tox:ABCDEFGHIJKLMNOPQRSTUVWXYZabcdefghijklmnopqrstuvwxyzABCDEFGHIJKLMNOPQRSTUVWX").
Proof. vm_compute. split; reflexivity. Qed.

(** C5: [*bold*] becomes [<b>bold</b>] without the formatting symbols and
    [<b>*bold*</b>] with them: the text put into the wrapper is the whole
    match when [showFormattingSymbols] is true and group 1 when it is
    false, and for every match of every rule group 1 is the whole match
    without its delimiters, the first and the last [delimiter_length]
    characters. *)
Theorem applyMarkdown_bold :
  applyMarkdown (qs "*bold*") false = qs "<b>bold</b>"
  /\ applyMarkdown (qs "*bold*") true = qs "<b>*bold*</b>"
  /\ (forall subject m,
         captured subject m (capturedIndex true) = captured subject m 0
         /\ captured subject m (capturedIndex false) = captured subject m 1)
  /\ (forall n pair s m,
         nth_error REGEX_TO_WRAPPER n = Some pair ->
         In m (globalMatch (fst pair) s) ->
         captured s m 1
         = mid (captured s m 0) (delimiter_length n)
             (length (captured s m 0) - 2 * delimiter_length n)).
Proof.
  split; [vm_compute; reflexivity|].
  split; [vm_compute; reflexivity|].
  split; [intros subject m; split; reflexivity|].
  intros n pair s m Hn Hm.
  apply globalMatch_sem in Hm. destruct Hm as [Hb Hs].
  destruct (@rule_delimited n pair _ _ _ _ Hn Hs) as (_ & _ & Hg & Hlt).
  unfold captured. cbn [span]. rewrite Hg.
  rewrite mid_length by lia.
  generalize (delimiter_length n) Hlt. intros d Hd.
  unfold mid.
  rewrite skipn_firstn_comm, skipn_skipn, firstn_firstn.
  replace (d + m_start m) with (m_start m + d) by lia.
  f_equal. lia.
Qed.

Lemma applyMarkdown_bold_witness :
  captured (qs "a **b c** d") (mkMatch 2 9 [(1, (4, 7))]) 1
  = mid (captured (qs "a **b c** d") (mkMatch 2 9 [(1, (4, 7))]) 0)
      (delimiter_length 5)
      (length (captured (qs "a **b c** d") (mkMatch 2 9 [(1, (4, 7))]) 0)
       - 2 * delimiter_length 5).
Proof.
  apply (proj2 (proj2 (proj2 applyMarkdown_bold)) 5
           (DOUBLE_SIGN_PATTERN (chr "*"), qs "<b>%1</b>")
           (qs "a **b c** d") (mkMatch 2 9 [(1, (4, 7))])).
  - reflexivity.
  - vm_compute. left. reflexivity.
Defined.

(** C6: [/it/ and _u_] becomes [<i>it</i> and <u>u</u>], each span in the
    tag of its own rule; and two spans of one rule, as in [/a/ /b/], are
    both replaced in place, the second at its start in the text as it was
    found plus the growth that the first replacement brought. *)
Theorem applyMarkdown_two_rules :
  applyMarkdown (qs "/it/ and _u_") false = qs "<i>it</i> and <u>u</u>"
  /\ applyMarkdown (qs "/a/ /b/") false = qs "<i>a</i> <i>b</i>"
  /\ forall subject wrapper show offset result m,
       markdownStep subject wrapper show (offset, result) m
       = let text := captured subject m (capturedIndex show) in
         if isTagIntersection text then (offset, result)
         else ((offset + (size (arg wrapper text) - capturedLength m))%Z,
               replace (capturedStart m + offset)%Z (capturedLength m)
                 (arg wrapper text) result).
Proof.
  split; [vm_compute; reflexivity|].
  split; [vm_compute; reflexivity|].
  reflexivity.
Qed.

(** C8: [highlightURL] is not idempotent.  It turns [www.a.com] into an
    anchor; run again on that anchor, it finds the URL once more inside the
    [href] value and in the anchor text and wraps both, so that the second
    result differs from the first. *)
Theorem highlightURL_not_idempotent :
  exists s,
    highlightURL s = arg HREF_WRAPPER s
    /\ highlightURL (highlightURL s)
       = qs "<a href=" ++ [dquote] ++ arg HREF_WRAPPER s ++ [dquote]
         ++ qs ">" ++ arg HREF_WRAPPER s ++ qs "</a>"
    /\ highlightURL (highlightURL s) <> highlightURL s.
Proof.
  exists (qs "www.a.com").
  split; [vm_compute; reflexivity|].
  split; [vm_compute; reflexivity|].
  vm_compute. discriminate.
Qed.

(** ** The matcher on [TAG_PATTERN], step by step *)

Lemma skipn_cons_inv (s : QString) (i : nat) (x : QChar) (l : QString) :
  skipn i s = x :: l -> char_at s i = Some x /\ skipn (S i) s = l.
Proof.
  intros H. split.
  - rewrite char_at_skipn, H. reflexivity.
  - change (S i) with (1 + i). rewrite <- skipn_skipn, H. reflexivity.
Qed.

Lemma skipn_nil_inv (s : QString) (i : nat) :
  skipn i s = [] -> char_at s i = None.
Proof. intros H. rewrite char_at_skipn, H. reflexivity. Qed.

Lemma run_Eps (s : QString) (i : nat) (c : caps) (k : cont) :
  run Eps s i c k = k i c.
Proof. reflexivity. Qed.

Lemma run_Cls (p : QChar -> bool) (s : QString) (i : nat) (c : caps)
  (k : cont) :
  run (Cls p) s i c k
  = match char_at s i with
    | Some ch => if p ch then k (S i) c else None
    | None => None
    end.
Proof. reflexivity. Qed.

Lemma run_Seq (a b : regex) (s : QString) (i : nat) (c : caps) (k : cont) :
  run (a ;; b) s i c k = run a s i c (fun j c' => run b s j c' k).
Proof. reflexivity. Qed.

Lemma run_Alt (a b : regex) (s : QString) (i : nat) (c : caps) (k : cont) :
  run (Alt a b) s i c k = orelse (run a s i c k) (run b s i c k).
Proof. reflexivity. Qed.

Lemma run_Behind (a : regex) (s : QString) (i : nat) (c : caps) (k : cont) :
  run (Behind true a) s i c k
  = match scan_back (fun j => run a s j c (ends_at i)) i with
    | Some (_, c') => k i c'
    | None => None
    end.
Proof. reflexivity. Qed.

(** One iteration of a quantified character class. *)
Lemma star_cls_unfold (g : bool) (p : QChar -> bool) (s : QString) (i : nat)
  (c : caps) (k : cont) :
  run (Star g (Cls p)) s i c k
  = let again :=
      match char_at s i with
      | Some ch => if p ch then run (Star g (Cls p)) s (S i) c k else None
      | None => None
      end in
    if g then orelse again (k i c) else orelse (k i c) again.
Proof.
  cbn [run star_loop]. cbv zeta.
  destruct (char_at s i) as [ch|] eqn:E.
  - apply char_at_lt in E.
    replace (length s - i) with (S (length s - S i)) by lia.
    destruct (p ch); [|reflexivity].
    rewrite (proj2 (Nat.ltb_lt i (S i))) by lia. reflexivity.
  - reflexivity.
Qed.

(** A greedy quantified class goes to the end of the run of the class when
    the rest of the pattern fails at every earlier position. *)
Lemma greedy_run (p : QChar -> bool) (s : QString) (c : caps) (k : cont) :
  forall l i,
    skipn i s = l ->
    (forall x, i <= x < i + run_length p l -> k x c = None) ->
    run (Star true (Cls p)) s i c k = k (i + run_length p l) c.
Proof.
  induction l as [|ch l IH]; intros i Hl Hk; rewrite star_cls_unfold; cbv zeta.
  - rewrite (skipn_nil_inv _ _ Hl). cbn [run_length orelse].
    rewrite Nat.add_0_r. reflexivity.
  - destruct (skipn_cons_inv _ _ _ _ Hl) as [Hch Hl']. rewrite Hch.
    cbn [run_length] in *. destruct (p ch).
    + rewrite (IH (S i) Hl') by (intros x Hx; apply Hk; lia).
      rewrite (Hk i) by lia.
      replace (S i + run_length p l) with (i + S (run_length p l)) by lia.
      destruct (k _ c); reflexivity.
    + cbn [orelse]. rewrite Nat.add_0_r. reflexivity.
Qed.

Lemma run_length_class (p : QChar -> bool) :
  forall l x, x < run_length p l ->
              exists ch, nth_error l x = Some ch /\ p ch = true.
Proof.
  induction l as [|c l IH]; intros x Hx; cbn [run_length] in Hx; [lia|].
  destruct (p c) eqn:E; [|lia].
  destruct x as [|x]; [exists c; auto|].
  apply IH. lia.
Qed.

Lemma scan_back_none (f : nat -> option outcome) (n : nat) :
  (forall j, j <= n -> f j = None) -> scan_back f n = None.
Proof.
  induction n as [|n IH]; intros H; cbn [scan_back].
  - rewrite (H 0) by lia. reflexivity.
  - rewrite (H (S n)) by lia. apply IH. intros j Hj. apply H. lia.
Qed.

Lemma scan_back_only (f : nat -> option outcome) (j0 : nat) :
  forall n,
    j0 <= n ->
    (forall j, j <= n -> j <> j0 -> f j = None) ->
    scan_back f n = f j0.
Proof.
  induction n as [|n IH]; intros Hj0 H.
  - replace j0 with 0 by lia. cbn [scan_back]. destruct (f 0); reflexivity.
  - destruct (Nat.eq_dec j0 (S n)) as [->|Hne].
    + cbn [scan_back]. destruct (f (S n)) eqn:E; [reflexivity|].
      apply scan_back_none. intros j Hj. apply H; lia.
    + cbn [scan_back]. rewrite (H (S n)) by lia.
      apply IH; [lia|]. intros j Hj Hjne. apply H; lia.
Qed.

(** A lookbehind for one character of a class looks at the character
    before the position. *)
Lemma lookbehind_cls (p : QChar -> bool) (s : QString) (i : nat) (c : caps) :
  scan_back (fun j => run (Cls p) s j c (ends_at i)) i
  = match char_before s i with
    | Some b => if p b then Some (i, c) else None
    | None => None
    end.
Proof.
  assert (Hother : forall j, S j <> i -> run (Cls p) s j c (ends_at i) = None).
  { intros j Hj. cbn [run]. unfold ends_at.
    destruct (char_at s j); [|reflexivity]. destruct (p q); [|reflexivity].
    destruct (Nat.eqb_spec (S j) i); [contradiction|reflexivity]. }
  destruct i as [|i]; cbn [char_before].
  - apply scan_back_none. intros j Hj. apply Hother. lia.
  - rewrite (scan_back_only _ i) by (try lia; intros j Hj Hne; apply Hother; lia).
    cbn [run]. unfold ends_at. rewrite Nat.eqb_refl. reflexivity.
Qed.

Lemma alnum_not_gt (c : QChar) : is_alnum c = true -> is_char ">" c = false.
Proof.
  unfold is_char. intros H. destruct (N.eqb_spec c (chr ">")) as [->|];
    [vm_compute in H; discriminate|reflexivity].
Qed.

Lemma alnum_not_slash (c : QChar) : is_alnum c = true -> is_char "/" c = false.
Proof.
  unfold is_char. intros H. destruct (N.eqb_spec c (chr "/")) as [->|];
    [vm_compute in H; discriminate|reflexivity].
Qed.

Lemma alnum_not_lt (c : QChar) : is_alnum c = true -> is_char "<" c = false.
Proof.
  unfold is_char. intros H. destruct (N.eqb_spec c (chr "<")) as [->|];
    [vm_compute in H; discriminate|reflexivity].
Qed.

Lemma slash_not_alnum (c : QChar) : is_char "/" c = true -> is_alnum c = false.
Proof.
  intros H. destruct (is_alnum c) eqn:E; [|reflexivity].
  apply alnum_not_slash in E. congruence.
Qed.

Lemma slash_not_lt (c : QChar) : is_char "/" c = true -> is_char "<" c = false.
Proof.
  intros H. apply is_char_eq in H. subst. reflexivity.
Qed.

(** A name that ends at a [>] is the whole run of letters and digits, not
    empty, with [>] after it. *)
Lemma is_name_then_gt_run (l : QString) :
  is_name_then_gt l
  = (0 <? run_length is_alnum l)
    && gt_first (skipn (run_length is_alnum l) l).
Proof.
  induction l as [|c l IH]; [reflexivity|].
  cbn [is_name_then_gt run_length].
  destruct (is_alnum c) eqn:Ec; [|reflexivity].
  cbn [andb skipn Nat.ltb Nat.leb]. rewrite IH.
  destruct l as [|d l]; [reflexivity|].
  cbn [run_length gt_first] in *.
  destruct (is_alnum d) eqn:Ed.
  - rewrite (alnum_not_gt _ Ed). reflexivity.
  - cbn [skipn gt_first Nat.ltb Nat.leb andb]. apply orb_false_r.
Qed.

(** The name and the lookahead for [>]. *)
Lemma run_name (s : QString) (j : nat) (c : caps) :
  run (Plus true (Cls is_alnum) ;; Ahead true (Cls (is_char ">"))) s j c ret
  = if is_name_then_gt (skipn j s)
    then Some (j + run_length is_alnum (skipn j s), c)
    else None.
Proof.
  assert (Hk : forall x,
             run (Ahead true (Cls (is_char ">"))) s x c ret
             = if gt_first (skipn x s) then Some (x, c) else None).
  { intros x. cbn [run]. rewrite char_at_skipn.
    destruct (skipn x s) as [|d l]; [reflexivity|].
    cbn [hd_error gt_first]. destruct (is_char ">" d); reflexivity. }
  rewrite is_name_then_gt_run.
  unfold Plus. rewrite !run_Seq, run_Cls.
  destruct (skipn j s) as [|ch l] eqn:El.
  - rewrite (skipn_nil_inv _ _ El). reflexivity.
  - destruct (skipn_cons_inv _ _ _ _ El) as [Hch Hl]. rewrite Hch.
    cbn [run_length]. destruct (is_alnum ch); [|reflexivity].
    rewrite (greedy_run is_alnum s c
               (fun x c0 => run (Ahead true (Cls (is_char ">"))) s x c0 ret)
               l (S j) Hl).
    + rewrite Hk. cbn [Nat.ltb Nat.leb andb skipn].
      replace (skipn (S j + run_length is_alnum l) s)
        with (skipn (run_length is_alnum l) l)
        by (rewrite <- Hl, skipn_skipn; f_equal; lia).
      replace (j + S (run_length is_alnum l))
        with (S j + run_length is_alnum l) by lia.
      reflexivity.
    + intros x Hx. rewrite Hk.
      destruct (run_length_class is_alnum l (x - S j)) as (d & Hd & Hal);
        [lia|].
      replace (skipn x s) with (skipn (x - S j) l)
        by (rewrite <- Hl, skipn_skipn; f_equal; lia).
      pose proof (char_at_skipn l (x - S j)) as Hhd. unfold char_at in Hhd.
      rewrite Hd in Hhd.
      destruct (skipn (x - S j) l) as [|d' l']; [discriminate|].
      cbn [hd_error] in Hhd. injection Hhd as <-.
      cbn [gt_first]. rewrite (alnum_not_gt _ Hal). reflexivity.
Qed.

(** The matcher on [TAG_PATTERN] finds what [tag_end] describes. *)
Lemma run_TAG_PATTERN (s : QString) (i : nat) :
  run TAG_PATTERN s i [] ret
  = match tag_end s i with
    | Some e => Some (e, [])
    | None => None
    end.
Proof.
  unfold TAG_PATTERN, tag_end, Opt, is_opening_token.
  rewrite run_Seq, run_Behind, lookbehind_cls.
  destruct (char_before s i) as [b|]; [|reflexivity].
  destruct (is_char "<" b); [|reflexivity].
  rewrite run_Seq, run_Alt, run_Cls, run_Eps. cbv beta.
  rewrite !run_name.
  destruct (skipn i s) as [|ch l] eqn:El.
  - rewrite (skipn_nil_inv _ _ El). reflexivity.
  - destruct (skipn_cons_inv _ _ _ _ El) as [Hch Hl]. rewrite Hch, Hl.
    cbn [is_closing_token]. destruct (is_char "/" ch) eqn:Esl.
    + cbn [andb].
      destruct (is_name_then_gt l); [reflexivity|].
      cbn [orelse is_name_then_gt]. rewrite (slash_not_alnum _ Esl).
      reflexivity.
    + cbn [andb orelse]. destruct (is_name_then_gt (ch :: l)); reflexivity.
Qed.

(** ** Counting the tag tokens *)

Lemma match_at_TAG_PATTERN (s : QString) (i : nat) :
  match_at TAG_PATTERN s i
  = match tag_end s i with
    | Some e => Some (mkMatch i e [])
    | None => None
    end.
Proof.
  unfold match_at. rewrite run_TAG_PATTERN. destruct (tag_end s i); reflexivity.
Qed.

Lemma search_from_step (r : regex) (s : QString) (i : nat) :
  i <= length s ->
  search_from r s i
  = match match_at r s i with
    | Some m => Some m
    | None => search_from r s (S i)
    end.
Proof.
  intros H. unfold search_from.
  replace (S (length s) - i) with (S (S (length s) - S i)) by lia.
  reflexivity.
Qed.

Lemma matches_from_skip (r : regex) (s : QString) (fuel i : nat) :
  i <= length s ->
  match_at r s i = None ->
  matches_from r s fuel i false = matches_from r s fuel (S i) false.
Proof.
  intros Hi Hn. destruct fuel as [|fuel]; [reflexivity|].
  cbn [matches_from next_match]. rewrite (search_from_step r s i Hi), Hn.
  reflexivity.
Qed.

Lemma matches_from_hit (r : regex) (s : QString) (fuel i : nat) (m : Match) :
  i <= length s ->
  match_at r s i = Some m ->
  matches_from r s (S fuel) i false
  = m :: matches_from r s fuel (m_end m) (Nat.eqb (m_end m) (m_start m)).
Proof.
  intros Hi Hm. cbn [matches_from next_match].
  rewrite (search_from_step r s i Hi), Hm. reflexivity.
Qed.

Lemma count_tokens_skip (kind : QString -> bool) :
  forall k l,
    (forall x, x < k ->
               exists ch, nth_error l x = Some ch /\ is_char "<" ch = false) ->
    count_tokens kind l = count_tokens kind (skipn k l).
Proof.
  induction k as [|k IH]; intros l H; [reflexivity|].
  destruct l as [|c l].
  - destruct (H 0) as (ch & Hch & _); [lia|discriminate].
  - destruct (H 0) as (ch & Hch & Hlt); [lia|].
    injection Hch as ->. cbn [count_tokens skipn]. rewrite Hlt. cbn [andb].
    apply IH. intros x Hx. apply (H (S x)). lia.
Qed.

(** What a match of [TAG_PATTERN] at [i] looks like: some [len] characters,
    none of them [<], with [>] after them; it starts with [/] exactly when
    it is a closing token. *)
Lemma tag_end_some (s : QString) (i e : nat) :
  tag_end s i = Some e ->
  exists b len,
    char_before s i = Some b /\ is_char "<" b = true
    /\ e = i + len /\ 0 < len /\ i + len < length s
    /\ (forall x, x < len ->
          exists ch, nth_error (skipn i s) x = Some ch
                     /\ is_char "<" ch = false)
    /\ is_char "/" (first_char (skipn i s)) = is_closing_token (skipn i s)
    /\ is_opening_token (skipn i s) = negb (is_closing_token (skipn i s)).
Proof.
  unfold tag_end, is_opening_token. intros H.
  destruct (char_before s i) as [b|]; [|discriminate].
  destruct (is_char "<" b) eqn:Eb; [|discriminate].
  assert (Hlen : forall l : QString,
             gt_first (skipn (run_length is_alnum l) l) = true ->
             run_length is_alnum l < length l).
  { intros l Hg. destruct (skipn (run_length is_alnum l) l) eqn:E;
      [discriminate|].
    assert (length (skipn (run_length is_alnum l) l) = S (length l0))
      by (rewrite E; reflexivity).
    rewrite length_skipn in *. lia. }
  assert (Hnolt : forall (l : QString) x,
             x < run_length is_alnum l ->
             exists ch, nth_error l x = Some ch /\ is_char "<" ch = false).
  { intros l x Hx.
    destruct (run_length_class is_alnum l x Hx) as (ch & Hch & Hal).
    exists ch. split; [assumption|]. apply alnum_not_lt. assumption. }
  exists b.
  destruct (skipn i s) as [|ch l] eqn:El; [discriminate|].
  destruct (skipn_cons_inv _ _ _ _ El) as [Hch Hl].
  assert (Hsz : length s = i + S (length l)).
  { pose proof (length_skipn i s) as Hs. rewrite El in Hs. cbn [length] in Hs.
    apply char_at_lt in Hch. lia. }
  cbn [is_closing_token first_char hd] in *.
  destruct (is_char "/" ch) eqn:Esl; cbn [andb] in *.
  - rewrite Hl in H.
    destruct (is_name_then_gt l) eqn:En.
    + injection H as <-. rewrite is_name_then_gt_run in En.
      apply andb_true_iff in En. destruct En as [Hpos Hgt].
      apply Nat.ltb_lt in Hpos. apply Hlen in Hgt.
      exists (S (run_length is_alnum l)).
      repeat split; try lia; auto.
      * intros x Hx. destruct x as [|x].
        -- exists ch. split; [reflexivity|]. apply slash_not_lt. assumption.
        -- cbn [nth_error]. apply Hnolt. lia.
      * cbn [is_name_then_gt]. rewrite (slash_not_alnum _ Esl). reflexivity.
    + cbn [is_name_then_gt] in H. rewrite (slash_not_alnum _ Esl) in H.
      discriminate.
  - destruct (is_name_then_gt (ch :: l)) eqn:En; [|discriminate].
    injection H as <-. rewrite is_name_then_gt_run in En.
    apply andb_true_iff in En. destruct En as [Hpos Hgt].
    apply Nat.ltb_lt in Hpos. apply Hlen in Hgt. cbn [length] in Hgt.
    exists (run_length is_alnum (ch :: l)).
    repeat split; try lia; auto.
Qed.

Lemma tag_end_none (s : QString) (i : nat) (b : QChar) :
  tag_end s i = None ->
  char_before s i = Some b ->
  is_char "<" b && is_closing_token (skipn i s) = false
  /\ is_char "<" b && is_opening_token (skipn i s) = false.
Proof.
  unfold tag_end. intros H Hb. rewrite Hb in H.
  destruct (is_char "<" b); [|auto].
  destruct (is_closing_token (skipn i s)); [discriminate|].
  destruct (is_opening_token (skipn i s)); [discriminate|]. auto.
Qed.

Lemma first_char_mid (s : QString) (i len : nat) :
  0 < len -> first_char (mid s i len) = first_char (skipn i s).
Proof.
  intros H. unfold mid, first_char.
  destruct len as [|len]; [lia|]. destruct (skipn i s); reflexivity.
Qed.

(** The loop of [isTagIntersection] from position [p + 1] on counts the
    tokens that follow a [<] at position [p] or later. *)
Lemma tag_counts_from (s : QString) :
  forall n p fuel o c,
    length s - p <= n ->
    S p <= length s ->
    length s - S p < fuel ->
    fold_left (countTag s) (matches_from TAG_PATTERN s fuel (S p) false) (o, c)
    = ((o + Z.of_nat (opening_tokens (skipn p s)))%Z,
       (c + Z.of_nat (closing_tokens (skipn p s)))%Z).
Proof.
  unfold opening_tokens, closing_tokens.
  induction n as [|n IH]; intros p fuel o c Hn Hp Hfuel; [lia|].
  destruct (skipn p s) as [|b l] eqn:El.
  { pose proof (length_skipn p s) as Hs. rewrite El in Hs. cbn [length] in Hs.
    lia. }
  destruct (skipn_cons_inv _ _ _ _ El) as [Hb Hl].
  cbn [count_tokens].
  destruct (tag_end s (S p)) as [e|] eqn:Et.
  - destruct (tag_end_some _ _ _ Et)
      as (b' & len & Hb' & Hlt & -> & Hlen & Hin & Hno & Hfirst & Hopen).
    cbn [char_before] in Hb'. rewrite Hb in Hb'. injection Hb' as <-.
    rewrite Hl in *. rewrite Hlt, Hopen. cbn [andb].
    destruct fuel as [|fuel]; [lia|].
    rewrite (matches_from_hit TAG_PATTERN s fuel (S p)
               (mkMatch (S p) (S p + len) [])) by
      (try lia; rewrite match_at_TAG_PATTERN, Et; reflexivity).
    cbn [m_end m_start fold_left].
    rewrite (proj2 (Nat.eqb_neq (S p + len) (S p))) by lia.
    assert (Hct : countTag s (o, c) (mkMatch (S p) (S p + len) [])
                  = if is_closing_token l then (o, (c + 1)%Z)
                    else ((o + 1)%Z, c)).
    { unfold countTag, captured. cbn [span m_start m_end].
      replace (S p + len - S p) with len by lia.
      rewrite first_char_mid by lia. rewrite Hl, Hfirst. reflexivity. }
    rewrite Hct. clear Hct.
    replace (S p + len) with (S (p + len)) by lia.
    assert (Hskip : forall kind,
               count_tokens kind (skipn (p + len) s) = count_tokens kind l).
    { intros kind.
      replace (skipn (p + len) s) with (skipn (len - 1) l)
        by (rewrite <- Hl, skipn_skipn; f_equal; lia).
      symmetry. apply count_tokens_skip. intros x Hx. apply Hno. lia. }
    destruct (is_closing_token l); cbn [negb];
      rewrite (IH (p + len) fuel) by lia; rewrite !Hskip; f_equal; lia.
  - destruct (tag_end_none _ _ _ Et Hb) as [Hc Ho]. rewrite Hl in *.
    rewrite Hc, Ho. cbn [Nat.add].
    rewrite matches_from_skip
      by (try lia; rewrite match_at_TAG_PATTERN, Et; reflexivity).
    destruct (Nat.eq_dec (S p) (length s)) as [Hend|Hend].
    + destruct fuel as [|fuel]; [lia|].
      cbn [matches_from next_match]. unfold search_from.
      replace (S (length s) - S (S p)) with 0 by lia. cbn [search fold_left].
      assert (l = []) as ->.
      { pose proof (length_skipn (S p) s) as Hs. rewrite Hl in Hs.
        destruct l; [reflexivity|cbn [length] in Hs; lia]. }
      cbn [count_tokens]. f_equal; lia.
    + rewrite (IH (S p) fuel) by lia. rewrite Hl. reflexivity.
Qed.

Lemma tagCounts_tokens (str : QString) :
  tagCounts str
  = (Z.of_nat (opening_tokens str), Z.of_nat (closing_tokens str)).
Proof.
  unfold tagCounts, globalMatch.
  destruct str as [|ch str]; [reflexivity|].
  rewrite matches_from_skip
    by (try lia; rewrite match_at_TAG_PATTERN; reflexivity).
  rewrite (tag_counts_from (ch :: str) (length (ch :: str)) 0)
    by (cbn [length]; lia).
  reflexivity.
Qed.

(** C3: [isTagIntersection] returns true exactly when the tokens that start
    with [/] and the tokens that do not differ in number, a token being a
    run of letters and digits, with or without a [/] before it, that stands
    right between a [<] and a [>]. *)
Theorem isTagIntersection_counts (str : QString) :
  isTagIntersection str = true
  <-> closing_tokens str <> opening_tokens str.
Proof.
  unfold isTagIntersection. rewrite tagCounts_tokens.
  rewrite negb_true_iff, Z.eqb_neq. lia.
Qed.

(** ** The fixed-length Tox identifier pattern *)

Lemma sem_Times_Cls (p : QChar -> bool) (s : QString) :
  forall n i c j c',
    sem (Times n (Cls p)) s i c j c' ->
    j = i + n /\ c' = c
    /\ forall x, i <= x < j -> exists ch, char_at s x = Some ch /\ p ch = true.
Proof.
  induction n as [|n IH]; intros i c j c' H; cbn [Times sem] in H.
  - destruct H as [-> ->].
    split; [lia|split; [reflexivity|intros x Hx; lia]].
  - destruct H as (m & cm & (ch & Hch & Hp & -> & ->) & H).
    apply IH in H. destruct H as (-> & -> & H).
    split; [lia|split; [reflexivity|]].
    intros x Hx. destruct (Nat.eq_dec x i) as [->|Hne]; [eauto|].
    apply H. lia.
Qed.

Lemma sem_lit_chars (s : QString) :
  forall l i c j c',
    sem (lit_chars l) s i c j c' -> j = i + length l /\ c' = c.
Proof.
  induction l as [|a l IH]; intros i c j c' H; cbn [lit_chars sem] in H.
  - destruct H as [-> ->]. cbn [length]. split; [lia|reflexivity].
  - destruct H as (m & cm & (ch & _ & _ & -> & ->) & H).
    apply IH in H. destruct H as [-> ->]. cbn [length]. split; [lia|reflexivity].
Qed.

Lemma tox_id_char_not_digit (c : QChar) :
  is_tox_id_char c = true -> is_digit c = false.
Proof.
  unfold is_tox_id_char, is_letter, is_digit, is_char, in_range.
  change (chr "\") with 92%N. change (chr "d") with 100%N.
  rewrite !orb_true_iff, !andb_true_iff, !N.leb_le, !N.eqb_eq.
  intros H. apply not_true_is_false.
  rewrite andb_true_iff, !N.leb_le. lia.
Qed.

(** Whatever the message, a match of the third URL pattern is [tox:] and 76
    more characters, and none of the 76 is a digit. *)
Lemma tox_id_pattern_has_no_digit (s : QString) (m : Match) :
  In m (globalMatch (nth 2 URL_PATTERNS Eps) s) ->
  m_end m = m_start m + 80
  /\ forall x, m_start m + 4 <= x < m_end m ->
               exists ch, char_at s x = Some ch /\ is_digit ch = false.
Proof.
  intros H. apply globalMatch_sem in H. destruct H as [_ H].
  cbn [nth URL_PATTERNS] in H. cbn [sem] in H.
  destruct H as (m1 & c1 & (_ & -> & ->) & m2 & c2 & Hlit & Hid).
  apply sem_lit_chars in Hlit. destruct Hlit as [-> ->].
  apply sem_Times_Cls in Hid. destruct Hid as (Hend & _ & Hid).
  change (length (qs "tox:")) with 4 in *.
  split; [lia|].
  intros x Hx. destruct (Hid x) as (ch & Hch & Hp); [lia|].
  exists ch. split; [assumption|]. apply tox_id_char_not_digit. assumption.
Qed.

(* ================================================================== *)
(** * Further properties of the two rewriting loops *)

(** ** The matches come in order *)

Lemma matches_from_in_order (r : regex) (s : QString) (fuel : nat) :
  forall from pe,
    from <= length s ->
    in_order from (length s) (matches_from r s fuel from pe).
Proof.
  induction fuel as [|fuel IH]; intros from pe Hfrom; cbn [matches_from];
    [exact I|].
  destruct (next_match r s from pe) as [m|] eqn:E; [|exact I].
  apply next_match_sem in E; [|assumption]. destruct E as [Hr Hs].
  pose proof (sem_bounds _ _ _ _ _ _ Hs) as Hb.
  cbn [in_order]. repeat split; try lia.
  apply IH. lia.
Qed.

Lemma globalMatch_in_order (r : regex) (s : QString) :
  in_order 0 (length s) (globalMatch r s).
Proof. unfold globalMatch. apply matches_from_in_order. lia. Qed.

Lemma in_order_weaken (bound : nat) (ms : list Match) :
  forall from from', from' <= from -> in_order from bound ms ->
                     in_order from' bound ms.
Proof.
  destruct ms as [|m ms]; intros from from' Hle H; [exact I|].
  cbn [in_order] in *. destruct H as (H1 & H2 & H3 & H4).
  repeat split; try lia. assumption.
Qed.

(** ** A replacement at the shifted position hits the span that was
    matched *)

Lemma replace_aligned (s P w : QString) (e st en : nat) :
  e <= st -> st <= en -> en <= length s ->
  replace (Z.of_nat st + (Z.of_nat (length P) - Z.of_nat e))
    (Z.of_nat en - Z.of_nat st) w (P ++ skipn e s)
  = (P ++ mid s e (st - e) ++ w) ++ skipn en s.
Proof.
  intros H1 H2 H3. unfold replace.
  assert (Hsz : size (P ++ skipn e s)
                = Z.of_nat (length P + (length s - e)))
    by (unfold size; rewrite length_app, length_skipn; reflexivity).
  rewrite Hsz. clear Hsz.
  set (pos := (Z.of_nat st + (Z.of_nat (length P) - Z.of_nat e))%Z).
  assert (E1 : (pos <? 0)%Z = false) by (apply Z.ltb_ge; unfold pos; lia).
  assert (E2 : (Z.of_nat (length P + (length s - e)) <? pos)%Z = false)
    by (apply Z.ltb_ge; unfold pos; lia).
  assert (E3 : (Z.of_nat (length P + (length s - e)) - pos
                <? Z.of_nat en - Z.of_nat st)%Z = false)
    by (apply Z.ltb_ge; unfold pos; lia).
  rewrite E1, E2, E3. cbn [orb].
  replace (Z.to_nat pos) with (length P + (st - e)) by (unfold pos; lia).
  replace (Z.to_nat (pos + (Z.of_nat en - Z.of_nat st)))
    with (length P + (en - e)) by (unfold pos; lia).
  rewrite firstn_app, skipn_app.
  rewrite (firstn_all2 P) by lia. rewrite (skipn_all2 P) by lia.
  replace (length P + (st - e) - length P) with (st - e) by lia.
  replace (length P + (en - e) - length P) with (en - e) by lia.
  rewrite skipn_skipn. replace (en - e + e) with en by lia.
  unfold mid. rewrite <- !app_assoc. reflexivity.
Qed.

Lemma markdown_fold_splice (s wrapper : QString) (show : bool) :
  forall ms from e P offset,
    in_order from (length s) ms ->
    e <= from ->
    offset = (Z.of_nat (length P) - Z.of_nat e)%Z ->
    snd (fold_left (markdownStep s wrapper show) ms (offset, P ++ skipn e s))
    = P ++ splice s e
             (map (markdownEdit s wrapper show) (filter (accepted s show) ms)).
Proof.
  induction ms as [|m ms IH]; intros from e P offset Hord He Hoff;
    cbn [fold_left filter map splice snd]; [reflexivity|].
  cbn [in_order] in Hord. destruct Hord as (H1 & H2 & H3 & Hord).
  unfold accepted at 1. unfold markdownStep at 2.
  destruct (isTagIntersection _) eqn:Eg; cbn [negb].
  - apply (IH (m_end m)); [assumption|lia|assumption].
  - cbn [map splice markdownEdit]. unfold capturedStart, capturedLength.
    rewrite Hoff. rewrite replace_aligned by lia.
    rewrite (IH (m_end m) (m_end m)); [|assumption|lia|].
    + rewrite <- !app_assoc. reflexivity.
    + unfold size. rewrite !length_app, mid_length by lia. lia.
Qed.

Lemma url_fold_splice (s : QString) :
  forall ms e P,
    in_order e (length s) ms ->
    snd (fold_left (urlStep s (size s)) ms
           ((Z.of_nat (length P) - Z.of_nat e)%Z, P ++ skipn e s))
    = P ++ splice s e (map (urlEdit s) ms).
Proof.
  induction ms as [|m ms IH]; intros e P Hord;
    cbn [fold_left map splice snd]; [reflexivity|].
  cbn [in_order] in Hord. destruct Hord as (H1 & H2 & H3 & Hord).
  unfold urlStep at 2. cbn [urlEdit]. unfold capturedStart, capturedLength.
  rewrite replace_aligned by lia.
  set (P' := P ++ mid s e (m_start m - e)
               ++ arg HREF_WRAPPER (captured s m 0)).
  replace (size (P' ++ skipn (m_end m) s) - size s)%Z
    with (Z.of_nat (length P') - Z.of_nat (m_end m))%Z
    by (unfold size; rewrite length_app, length_skipn; lia).
  etransitivity; [exact (IH (m_end m) P' Hord)|].
  unfold P'. rewrite <- !app_assoc. reflexivity.
Qed.

Lemma urlPass_splice (result : QString) (exp : regex) :
  urlPass result exp
  = splice result 0 (map (urlEdit result) (globalMatch exp result)).
Proof.
  unfold urlPass.
  pose proof (url_fold_splice result (globalMatch exp result) 0 []
                (globalMatch_in_order exp result)) as H.
  cbn [length app skipn] in H. exact H.
Qed.

Lemma markdownPass_splice (show : bool) (result : QString)
  (pair : regex * QString) :
  markdownPass show result pair
  = splice result 0
      (map (markdownEdit result (snd pair) show)
         (filter (accepted result show) (globalMatch (fst pair) result))).
Proof.
  unfold markdownPass.
  pose proof (markdown_fold_splice result (snd pair) show
                (globalMatch (fst pair) result) 0 0 [] 0%Z
                (globalMatch_in_order (fst pair) result)
                (Nat.le_refl 0) eq_refl) as H.
  cbn [length app skipn] in H. exact H.
Qed.

(** X1: a pass of [highlightURL] does what replacing every match, found in
    the text as the pass received it, by its anchor does: the running
    offset keeps the replacements in the growing result on the matched
    spans. *)
Theorem urlPass_replaces_matches (result : QString) (exp : regex) :
  urlPass result exp
  = splice result 0 (map (urlEdit result) (globalMatch exp result)).
Proof. apply urlPass_splice. Qed.

(** X2: a pass of [applyMarkdown] does what replacing every match that
    passes the tag guard by its wrapped text does; the matches that the
    guard rejects stay as they are and do not disturb the positions of the
    later ones. *)
Theorem markdownPass_replaces_accepted (showFormattingSymbols : bool)
  (result : QString) (pair : regex * QString) :
  markdownPass showFormattingSymbols result pair
  = splice result 0
      (map (markdownEdit result (snd pair) showFormattingSymbols)
         (filter (accepted result showFormattingSymbols)
            (globalMatch (fst pair) result))).
Proof. apply markdownPass_splice. Qed.

(** ** How much a pass of [highlightURL] adds *)

Lemma url_splice_length (s : QString) :
  forall ms e,
    e <= length s ->
    in_order e (length s) ms ->
    length (splice s e (map (urlEdit s) ms)) + e
    = length s + anchors_growth ms.
Proof.
  induction ms as [|m ms IH]; intros e He Hord;
    cbn [map splice anchors_growth].
  - rewrite length_skipn. lia.
  - cbn [in_order] in Hord. destruct Hord as (H1 & H2 & H3 & Hord).
    cbn [urlEdit]. rewrite !length_app, arg_HREF_WRAPPER_length.
    rewrite mid_length by lia.
    pose proof (captured_whole_length s m (conj H2 H3)) as Hc.
    unfold size, capturedLength in Hc.
    specialize (IH (m_end m) H3 Hord). lia.
Qed.

Lemma urlPass_length_exact (result : QString) (exp : regex) :
  length (urlPass result exp)
  = length result + anchors_growth (globalMatch exp result).
Proof.
  rewrite urlPass_splice.
  pose proof (url_splice_length result (globalMatch exp result) 0
                (Nat.le_0_l _) (globalMatch_in_order exp result)) as HL.
  lia.
Qed.

(** X3: a pass of [highlightURL] makes the text longer by the length of
    every match plus the fifteen characters of the anchor markup, and by
    nothing else. *)
Theorem urlPass_growth (result : QString) (exp : regex) :
  length (urlPass result exp)
  = length result + anchors_growth (globalMatch exp result).
Proof. apply urlPass_length_exact. Qed.

(** ** When [highlightURL] changes the message *)

Lemma search_complete (r : regex) (s : QString) (fuel : nat) :
  forall i x m,
    i <= x < i + fuel ->
    match_at r s x = Some m ->
    search r s fuel i <> None.
Proof.
  induction fuel as [|fuel IH]; intros i x m Hx Hm; [lia|].
  cbn [search]. destruct (match_at r s i) eqn:E; [discriminate|].
  destruct (Nat.eq_dec x i) as [->|Hne]; [congruence|].
  apply (IH (S i) x m); [lia|assumption].
Qed.

Lemma globalMatch_not_nil (r : regex) (s : QString) :
  matches_somewhere r s = true -> globalMatch r s <> [].
Proof.
  unfold matches_somewhere. intros H.
  apply existsb_exists in H. destruct H as (x & Hx & H).
  apply in_seq in Hx.
  destruct (match_at r s x) as [m|] eqn:E; [|discriminate].
  unfold globalMatch.
  replace (2 * length s + 2) with (S (2 * length s + 1)) by lia.
  cbn [matches_from next_match]. unfold search_from.
  destruct (search r s (S (length s) - 0) 0) eqn:Es; [discriminate|].
  exfalso. revert Es. apply (search_complete r s _ 0 x m); [lia|assumption].
Qed.

Lemma urlPass_match_grows (s : QString) (exp : regex) :
  matches_somewhere exp s = true -> length s < length (urlPass s exp).
Proof.
  intros H. apply globalMatch_not_nil in H.
  rewrite urlPass_length_exact.
  destruct (globalMatch exp s); [congruence|].
  cbn [anchors_growth]. lia.
Qed.

Lemma urlPass_no_match (s : QString) (exp : regex) :
  matches_somewhere exp s = false -> urlPass s exp = s.
Proof.
  intros H. unfold urlPass. rewrite (globalMatch_nil _ _ H). reflexivity.
Qed.

Lemma url_fold_grows (l : list regex) :
  forall s,
    (exists exp, In exp l /\ matches_somewhere exp s = true) ->
    length s < length (fold_left urlPass l s).
Proof.
  induction l as [|exp0 l IH]; intros s (exp & Hin & Hm);
    [contradiction|].
  cbn [fold_left].
  assert (Hrest : forall t, length t <= length (fold_left urlPass l t)).
  { intros t. apply fold_left_length_le. intros u x _. apply urlPass_length. }
  destruct (matches_somewhere exp0 s) eqn:E0.
  - pose proof (urlPass_match_grows s exp0 E0).
    specialize (Hrest (urlPass s exp0)). lia.
  - rewrite (urlPass_no_match s exp0 E0).
    apply IH. exists exp. split; [|assumption].
    destruct Hin as [<-|Hin]; [congruence|assumption].
Qed.

(** X4: [highlightURL] returns the message as it is exactly when none of
    the URL patterns matches anywhere in it; a single match of any pattern
    makes the result longer than the message. *)
Theorem highlightURL_unchanged_iff (message : QString) :
  highlightURL message = message
  <-> forall exp, In exp URL_PATTERNS ->
                  matches_somewhere exp message = false.
Proof.
  unfold highlightURL. split.
  - intros H exp Hin.
    destruct (matches_somewhere exp message) eqn:E; [|reflexivity].
    exfalso.
    assert (Hlt : length message
                  < length (fold_left urlPass URL_PATTERNS message))
      by (apply url_fold_grows; exists exp; auto).
    rewrite H in Hlt. lia.
  - intros H. apply fold_left_fixed. intros exp Hin.
    apply urlPass_no_match. apply H. assumption.
Qed.

(** ** Nothing of the message is lost *)

Lemma subseq_refl (a : QString) : subseq a a.
Proof. induction a; constructor; assumption. Qed.

Lemma subseq_app (a1 b1 a2 b2 : QString) :
  subseq a1 b1 -> subseq a2 b2 -> subseq (a1 ++ a2) (b1 ++ b2).
Proof.
  intros H1 H2. induction H1 as [b | x a b _ IH | x a b _ IH]; cbn [app].
  - induction b as [|y b IHb]; cbn [app]; [assumption|].
    apply subseq_drop. assumption.
  - apply subseq_keep. assumption.
  - apply subseq_drop. assumption.
Qed.

Lemma subseq_trans (a b c : QString) :
  subseq a b -> subseq b c -> subseq a c.
Proof.
  intros Hab Hbc. revert a Hab.
  induction Hbc as [c | x b c _ IH | x b c _ IH]; intros a Hab.
  - inversion Hab; subst. constructor.
  - inversion Hab; subst.
    + constructor.
    + apply subseq_keep. apply IH. assumption.
    + apply subseq_drop. apply IH. assumption.
  - apply subseq_drop. apply IH. assumption.
Qed.

Lemma subseq_inside (pre a post : QString) : subseq a (pre ++ a ++ post).
Proof.
  change a with ([] ++ a) at 1. apply subseq_app; [constructor|].
  rewrite <- (app_nil_r a) at 1. apply subseq_app; [apply subseq_refl|].
  constructor.
Qed.

Lemma skipn_split (s : QString) (e st en : nat) :
  e <= st -> st <= en -> en <= length s ->
  skipn e s = mid s e (st - e) ++ mid s st (en - st) ++ skipn en s.
Proof.
  intros H1 H2 H3. unfold mid.
  rewrite <- (firstn_skipn (st - e) (skipn e s)) at 1.
  rewrite skipn_skipn. replace (st - e + e) with st by lia.
  f_equal.
  rewrite <- (firstn_skipn (en - st) (skipn st s)) at 1.
  rewrite skipn_skipn. replace (en - st + st) with en by lia.
  reflexivity.
Qed.

Lemma in_order_filter (p : Match -> bool) (bound : nat) :
  forall ms e, in_order e bound ms -> in_order e bound (filter p ms).
Proof.
  induction ms as [|m ms IH]; intros e H; cbn [filter]; [exact I|].
  cbn [in_order] in H. destruct H as (H1 & H2 & H3 & H4).
  destruct (p m).
  - cbn [in_order]. repeat split; try lia. apply IH. assumption.
  - apply (in_order_weaken bound _ (m_end m)); [lia|]. apply IH. assumption.
Qed.

Lemma splice_keeps (s : QString) (f : Match -> QString) :
  (forall m, subseq (mid s (m_start m) (m_end m - m_start m)) (f m)) ->
  forall ms e,
    in_order e (length s) ms ->
    subseq (skipn e s)
      (splice s e (map (fun m => (m_start m, m_end m, f m)) ms)).
Proof.
  intros Hf. induction ms as [|m ms IH]; intros e Hord; cbn [map splice].
  - apply subseq_refl.
  - cbn [in_order] in Hord. destruct Hord as (H1 & H2 & H3 & Hord).
    rewrite (skipn_split s e (m_start m) (m_end m)) by assumption.
    apply subseq_app; [apply subseq_refl|].
    apply subseq_app; [apply Hf|]. apply IH. assumption.
Qed.

Lemma wrapper_parts (n : nat) (pair : regex * QString) (a : QString) :
  nth_error REGEX_TO_WRAPPER n = Some pair ->
  arg (snd pair) a
  = before_marker (snd pair) ++ a ++ after_marker (snd pair).
Proof.
  intros Hn.
  do 10 (destruct n as [|n]; [injection Hn as <-; reflexivity|]).
  destruct n; discriminate.
Qed.

Lemma urlPass_keeps (s : QString) (exp : regex) : subseq s (urlPass s exp).
Proof.
  rewrite urlPass_splice.
  change (subseq (skipn 0 s)
            (splice s 0
               (map (fun m => (m_start m, m_end m,
                               arg HREF_WRAPPER (captured s m 0)))
                  (globalMatch exp s)))).
  apply (splice_keeps s (fun m => arg HREF_WRAPPER (captured s m 0))).
  - intros m. rewrite arg_HREF_WRAPPER.
    change (captured s m 0) with (mid s (m_start m) (m_end m - m_start m)).
    rewrite app_assoc. apply subseq_inside.
  - apply globalMatch_in_order.
Qed.

Lemma markdownPass_keeps (s : QString) (pair : regex * QString) :
  In pair REGEX_TO_WRAPPER -> subseq s (markdownPass true s pair).
Proof.
  intros Hin. apply In_nth_error in Hin. destruct Hin as [n Hn].
  rewrite markdownPass_splice.
  change (subseq (skipn 0 s)
            (splice s 0
               (map (fun m => (m_start m, m_end m,
                               arg (snd pair) (captured s m 0)))
                  (filter (accepted s true) (globalMatch (fst pair) s))))).
  apply (splice_keeps s (fun m => arg (snd pair) (captured s m 0))).
  - intros m. rewrite (wrapper_parts n pair _ Hn).
    change (captured s m 0) with (mid s (m_start m) (m_end m - m_start m)).
    apply subseq_inside.
  - apply in_order_filter. apply globalMatch_in_order.
Qed.

Lemma fold_left_keeps (A : Type) (f : QString -> A -> QString) (l : list A) :
  (forall s x, In x l -> subseq s (f s x)) ->
  forall s, subseq s (fold_left f l s).
Proof.
  induction l as [|x l IH]; intros Hf s; cbn [fold_left];
    [apply subseq_refl|].
  apply (subseq_trans s (f s x)).
  - apply Hf. left. reflexivity.
  - apply IH. intros s' y Hy. apply Hf. right. assumption.
Qed.

(** X5: [highlightURL], and [applyMarkdown] when the formatting symbols are
    kept, only ever add text: the message can be read off the result by
    leaving characters out, whatever the message. *)
Theorem formatting_only_inserts (message : QString) :
  subseq message (highlightURL message)
  /\ subseq message (applyMarkdown message true).
Proof.
  split.
  - unfold highlightURL. apply fold_left_keeps.
    intros s exp _. apply urlPass_keeps.
  - unfold applyMarkdown. apply fold_left_keeps.
    intros s pair Hin. apply markdownPass_keeps. assumption.
Qed.

(** ** Messages too short to hold a match *)

Lemma sem_min_width (r : regex) :
  forall s i c j c', sem r s i c j c' -> i + min_width r <= j.
Proof.
  induction r as [ | p | a IHa b IHb | a IHa b IHb | g a IHa | n a IHa
                 | pos a IHa | pos a IHa | | | ];
    intros s i c j c' H; cbn [min_width]; cbn [sem] in H.
  - destruct H; lia.
  - destruct H as (ch & _ & _ & -> & _). lia.
  - destruct H as (m & cm & Ha & Hb). apply IHa in Ha. apply IHb in Hb. lia.
  - destruct H as [H|H]; [apply IHa in H | apply IHb in H]; lia.
  - pose proof (sem_bounds (Star g a) s i c j c' H). lia.
  - destruct H as (c1 & Ha & _). apply IHa in Ha. assumption.
  - destruct pos; destruct H as (-> & _); lia.
  - destruct pos; destruct H as (-> & _); lia.
  - destruct H as (_ & -> & _); lia.
  - destruct H as (_ & -> & _); lia.
  - destruct H as (_ & -> & _); lia.
Qed.

Lemma globalMatch_short (r : regex) (s : QString) :
  length s < min_width r -> globalMatch r s = [].
Proof.
  intros H. destruct (globalMatch r s) as [|m ms] eqn:E; [reflexivity|].
  assert (Hin : In m (globalMatch r s)) by (rewrite E; left; reflexivity).
  apply globalMatch_sem in Hin. destruct Hin as [Hb Hs].
  apply sem_min_width in Hs. lia.
Qed.

Lemma URL_PATTERNS_min_width (exp : regex) :
  In exp URL_PATTERNS -> 5 <= min_width exp.
Proof.
  unfold URL_PATTERNS. intros H.
  repeat (destruct H as [<-|H]; [vm_compute; repeat constructor|]).
  contradiction.
Qed.

Lemma REGEX_TO_WRAPPER_min_width (pair : regex * QString) :
  In pair REGEX_TO_WRAPPER -> 3 <= min_width (fst pair).
Proof.
  unfold REGEX_TO_WRAPPER. intros H.
  repeat (destruct H as [<-|H]; [vm_compute; repeat constructor|]).
  contradiction.
Qed.

(** X6: a message of fewer than five characters has no room for a URL of any
    of the five kinds, and [highlightURL] returns it as it is; the empty
    message is one of them. *)
Theorem highlightURL_short_message (message : QString) :
  length message < 5 -> highlightURL message = message.
Proof.
  intros H. unfold highlightURL. apply fold_left_fixed. intros exp Hin.
  unfold urlPass. rewrite globalMatch_short; [reflexivity|].
  pose proof (URL_PATTERNS_min_width exp Hin). lia.
Qed.

Lemma highlightURL_short_message_witness :
  highlightURL (qs "www.") = qs "www.".
Proof.
  apply (highlightURL_short_message (qs "www.")). vm_compute. reflexivity.
Defined.

(** X7: a message of fewer than three characters has no room for two
    delimiters with text between them, and [applyMarkdown] returns it as it
    is, whatever the flag; the empty message is one of them. *)
Theorem applyMarkdown_short_message (message : QString)
  (showFormattingSymbols : bool) :
  length message < 3 ->
  applyMarkdown message showFormattingSymbols = message.
Proof.
  intros H. unfold applyMarkdown. apply fold_left_fixed. intros pair Hin.
  unfold markdownPass. rewrite globalMatch_short; [reflexivity|].
  pose proof (REGEX_TO_WRAPPER_min_width pair Hin). lia.
Qed.

Lemma applyMarkdown_short_message_witness :
  applyMarkdown (qs "**") true = qs "**".
Proof.
  apply (applyMarkdown_short_message (qs "**") true). vm_compute.
  repeat constructor.
Defined.

(** ** Where a span of emphasis starts and what it holds *)

Lemma iter_cls_all (p : QChar -> bool) (s : QString) (i : nat) (c : caps)
  (j : nat) (c' : caps) :
  iter (sem (Cls p) s) i c j c' ->
  forall x, i <= x < j -> exists ch, char_at s x = Some ch /\ p ch = true.
Proof.
  intros H.
  induction H as [i c | i c m cm j c' Hp Hlt _ IH | i c j c' Hp Hle];
    intros x Hx.
  - lia.
  - cbn [sem] in Hp. destruct Hp as (ch & Hch & Hpc & -> & _).
    destruct (Nat.eq_dec x i) as [->|Hne]; [eauto|]. apply IH. lia.
  - lia.
Qed.

Lemma cls_not_newline (p : QChar -> bool) (ch : QChar) :
  negb (p ch || is_newline ch) = true -> is_newline ch = false.
Proof.
  intros H. apply negb_true_iff in H. apply orb_false_iff in H. tauto.
Qed.

Lemma sem_SINGLE_SIGN_line (sign : QChar) (s : QString) (i j : nat)
  (c' : caps) :
  is_newline sign = false ->
  sem (SINGLE_SIGN_PATTERN sign) s i [] j c' ->
  sign_first sign s i /\ one_line s i j.
Proof.
  unfold SINGLE_SIGN_PATTERN, Plus, sign_first, one_line. intros Hs H.
  cbn [sem] in H.
  destruct H as (m1 & c1 & Hopen & m2 & c2 & Hd1 & m3 & c3 & Hna & m4 & c4
                 & Hgrp & m5 & c5 & Hnb & m6 & c6 & Hd2 & Hclose).
  apply sem_open in Hopen. apply sem_close in Hclose.
  destruct Hgrp as (c0 & (m7 & c7 & Hfirst & Hrest) & ->).
  pose proof (iter_cls_all _ _ _ _ _ _ Hrest) as Hall.
  apply iter_le in Hrest; [|intros x cx y cy Hx; sem_inv; subst; lia].
  destruct Hopen as (-> & -> & _). destruct Hclose as (-> & _ & _).
  destruct Hd1 as (ch1 & Hch1 & Heq1 & -> & ->).
  destruct Hna as (-> & -> & _).
  destruct Hfirst as (ch2 & Hch2 & Hp2 & -> & ->).
  destruct Hnb as (-> & _ & _).
  destruct Hd2 as (ch3 & Hch3 & Heq3 & -> & _).
  apply N.eqb_eq in Heq1, Heq3. subst ch1 ch3.
  split; [assumption|].
  intros x Hx.
  destruct (Nat.eq_dec x i) as [->|H1]; [eauto|].
  destruct (Nat.eq_dec x (S i)) as [->|H2].
  { exists ch2. split; [assumption|]. eapply cls_not_newline; eassumption. }
  destruct (Nat.eq_dec x m4) as [->|H3]; [eauto|].
  destruct (Hall x) as (ch & Hch & Hp); [lia|].
  exists ch. split; [assumption|]. eapply cls_not_newline; eassumption.
Qed.

Lemma sem_SINGLE_SLASH_line (s : QString) (i j : nat) (c' : caps) :
  sem SINGLE_SLASH_PATTERN s i [] j c' ->
  sign_first (chr "/") s i /\ one_line s i j.
Proof.
  unfold SINGLE_SLASH_PATTERN, Plus, Lit, sign_first, one_line.
  change (qs "/") with [47%N]. intros H.
  cbn [sem lit_chars] in H.
  destruct H as (m1 & c1 & Hopen & m2 & c2 & Hd1 & m3 & c3 & Hna & m4 & c4
                 & Hgrp & m5 & c5 & Hnb & m6 & c6 & Hd2 & Hclose).
  apply sem_open in Hopen. apply sem_close in Hclose.
  destruct Hgrp as (c0 & (m7 & c7 & Hfirst & Hrest) & ->).
  pose proof (iter_cls_all _ _ _ _ _ _ Hrest) as Hall.
  apply iter_le in Hrest; [|intros x cx y cy Hx; sem_inv; subst; lia].
  destruct Hopen as (-> & -> & _). destruct Hclose as (-> & _ & _).
  destruct Hd1 as (m8 & c8 & (ch1 & Hch1 & Heq1 & -> & ->) & -> & ->).
  destruct Hna as (-> & -> & _).
  destruct Hfirst as (ch2 & Hch2 & Hp2 & -> & ->).
  destruct Hnb as (-> & _ & _).
  destruct Hd2 as (m9 & c9 & (ch3 & Hch3 & Heq3 & -> & _) & -> & _).
  apply N.eqb_eq in Heq1, Heq3. subst ch1 ch3.
  split; [assumption|].
  intros x Hx.
  destruct (Nat.eq_dec x i) as [->|H1]; [eauto|].
  destruct (Nat.eq_dec x (S i)) as [->|H2].
  { exists ch2. split; [assumption|]. eapply cls_not_newline; eassumption. }
  destruct (Nat.eq_dec x m4) as [->|H3]; [eauto|].
  destruct (Hall x) as (ch & Hch & Hp); [lia|].
  exists ch. split; [assumption|]. eapply cls_not_newline; eassumption.
Qed.

Lemma sem_DOUBLE_SIGN_line (sign : QChar) (s : QString) (i j : nat)
  (c' : caps) :
  is_newline sign = false ->
  sem (DOUBLE_SIGN_PATTERN sign) s i [] j c' ->
  sign_first sign s i /\ one_line s i j.
Proof.
  unfold DOUBLE_SIGN_PATTERN, Plus, sign_first, one_line. intros Hs H.
  cbn [sem Times] in H.
  destruct H as (m1 & c1 & Hopen & m2 & c2 & Hd1 & m3 & c3 & Hna & m4 & c4
                 & Hgrp & m5 & c5 & Hnb & m6 & c6 & Hd2 & Hclose).
  apply sem_open in Hopen. apply sem_close in Hclose.
  destruct Hgrp as (c0 & (m7 & c7 & Hfirst & Hrest) & ->).
  pose proof (iter_cls_all _ _ _ _ _ _ Hrest) as Hall.
  apply iter_le in Hrest; [|intros x cx y cy Hx; sem_inv; subst; lia].
  destruct Hopen as (-> & -> & _). destruct Hclose as (-> & _ & _).
  destruct Hd1 as (m8 & c8 & (ch1 & Hch1 & Heq1 & -> & ->)
                   & m9 & c9 & (ch1' & Hch1' & Heq1' & -> & ->) & -> & ->).
  destruct Hna as (-> & -> & _).
  destruct Hfirst as (ch2 & Hch2 & Hp2 & -> & ->).
  destruct Hnb as (-> & _ & _).
  destruct Hd2 as (m10 & c10 & (ch3 & Hch3 & Heq3 & -> & _)
                   & m11 & c11 & (ch3' & Hch3' & Heq3' & -> & _) & -> & _).
  apply N.eqb_eq in Heq1, Heq1', Heq3, Heq3'. subst ch1 ch1' ch3 ch3'.
  split; [assumption|].
  intros x Hx.
  destruct (Nat.eq_dec x i) as [->|H1]; [eauto|].
  destruct (Nat.eq_dec x (S i)) as [->|H2]; [eauto|].
  destruct (Nat.eq_dec x (S (S i))) as [->|H2'].
  { exists ch2. split; [assumption|].
    apply negb_true_iff in Hp2. assumption. }
  destruct (Nat.eq_dec x m4) as [->|H3]; [eauto|].
  destruct (Nat.eq_dec x (S m4)) as [->|H4]; [eauto|].
  destruct (Hall x) as (ch & Hch & Hp); [lia|].
  exists ch. split; [assumption|]. apply negb_true_iff in Hp. assumption.
Qed.

Lemma sem_MULTILINE_CODE_sign (s : QString) (i j : nat) (c' : caps) :
  sem MULTILINE_CODE s i [] j c' -> sign_first (chr "`") s i.
Proof.
  unfold MULTILINE_CODE, Lit, sign_first.
  change (qs "```") with [96%N; 96%N; 96%N]. intros H.
  cbn [sem lit_chars] in H.
  destruct H as (m1 & c1 & Hopen & m2 & c2 & Hd1 & _).
  apply sem_open in Hopen. destruct Hopen as (-> & -> & _).
  destruct Hd1 as (m8 & c8 & (ch1 & Hch1 & Heq1 & _) & _).
  apply N.eqb_eq in Heq1. subst ch1. assumption.
Qed.

Lemma rule_sign (n : nat) (pair : regex * QString) (s : QString)
  (i j : nat) (c' : caps) :
  nth_error REGEX_TO_WRAPPER n = Some pair ->
  sem (fst pair) s i [] j c' ->
  exists sign, In sign markdown_signs /\ char_at s i = Some sign.
Proof.
  intros Hn H.
  do 10 (destruct n as [|n];
         [ injection Hn as <-; cbn [fst] in H;
           first
             [ apply sem_SINGLE_SLASH_line in H; destruct H as [H _]
             | apply sem_SINGLE_SIGN_line in H; [destruct H as [H _]
                                                |reflexivity]
             | apply sem_DOUBLE_SIGN_line in H; [destruct H as [H _]
                                                |reflexivity]
             | apply sem_MULTILINE_CODE_sign in H ];
           eexists; split; [|exact H];
           vm_compute; repeat (first [left; reflexivity | right]) | ]).
  destruct n; discriminate.
Qed.

Lemma rule_one_line (n : nat) (pair : regex * QString) (s : QString)
  (i j : nat) (c' : caps) :
  n < 9 ->
  nth_error REGEX_TO_WRAPPER n = Some pair ->
  sem (fst pair) s i [] j c' ->
  one_line s i j.
Proof.
  intros Hlt Hn H.
  do 9 (destruct n as [|n];
        [ injection Hn as <-; cbn [fst] in H;
          first
            [ apply sem_SINGLE_SLASH_line in H
            | apply sem_SINGLE_SIGN_line in H; [|reflexivity]
            | apply sem_DOUBLE_SIGN_line in H; [|reflexivity] ];
          exact (proj2 H) | ]).
  lia.
Qed.

Lemma globalMatch_none (r : regex) (s : QString) :
  (forall m, ~ In m (globalMatch r s)) -> globalMatch r s = [].
Proof.
  intros H. destruct (globalMatch r s) as [|m ms]; [reflexivity|].
  exfalso. apply (H m). left. reflexivity.
Qed.

(** X8: a message with none of the characters [/], [*], [_], [~] and the
    backtick in it is returned as it is by [applyMarkdown], whatever the
    flag: every span of every rule starts with one of them. *)
Theorem applyMarkdown_without_signs (message : QString)
  (showFormattingSymbols : bool) :
  (forall sign, In sign markdown_signs -> ~ In sign message) ->
  applyMarkdown message showFormattingSymbols = message.
Proof.
  intros H. unfold applyMarkdown. apply fold_left_fixed. intros pair Hin.
  apply In_nth_error in Hin. destruct Hin as [n Hn].
  unfold markdownPass. rewrite globalMatch_none; [reflexivity|].
  intros m Hm. apply globalMatch_sem in Hm. destruct Hm as [_ Hs].
  destruct (rule_sign n pair _ _ _ _ Hn Hs) as (sign & Hsign & Hch).
  apply (H sign Hsign). eapply char_at_In. eassumption.
Qed.

Lemma applyMarkdown_without_signs_witness :
  applyMarkdown (qs "<b>1 + 2 = 3<b>, see?") false
  = qs "<b>1 + 2 = 3<b>, see?".
Proof.
  apply (applyMarkdown_without_signs (qs "<b>1 + 2 = 3<b>, see?") false).
  intros sign Hin. vm_compute in Hin.
  repeat (destruct Hin as [<-|Hin];
          [vm_compute; intros H;
           repeat (destruct H as [H|H]; [discriminate H|]); exact H|]).
  contradiction.
Defined.

(** X9: a span of emphasis of any rule but the code fence lies in one line:
    no match of the single-sign and double-sign rules has a line feed
    anywhere in it. *)
Theorem emphasis_within_one_line (n : nat) (pair : regex * QString)
  (s : QString) (m : Match) :
  n < 9 ->
  nth_error REGEX_TO_WRAPPER n = Some pair ->
  In m (globalMatch (fst pair) s) ->
  one_line s (m_start m) (m_end m).
Proof.
  intros Hlt Hn Hm. apply globalMatch_sem in Hm. destruct Hm as [_ Hs].
  exact (rule_one_line n pair _ _ _ _ Hlt Hn Hs).
Qed.

Lemma emphasis_within_one_line_witness :
  one_line (qs "say *bold* now") 4 10.
Proof.
  apply (emphasis_within_one_line 1
           (SINGLE_SIGN_PATTERN (chr "*"), qs "<b>%1</b>")
           (qs "say *bold* now") (mkMatch 4 10 [(1, (5, 9))])).
  - repeat constructor.
  - reflexivity.
  - vm_compute. left. reflexivity.
Defined.

(** ** The tags that [applyMarkdown] inserts, seen by its own guard *)

Lemma is_name_then_gt_before_lt (l r : QString) :
  is_name_then_gt (l ++ chr "<" :: r) = is_name_then_gt l.
Proof.
  induction l as [|c l IH]; [reflexivity|].
  cbn [app is_name_then_gt]. rewrite IH.
  destruct l; reflexivity.
Qed.

Lemma is_closing_token_before_lt (l r : QString) :
  is_closing_token (l ++ chr "<" :: r) = is_closing_token l.
Proof.
  destruct l as [|c l]; [reflexivity|].
  cbn [app is_closing_token]. rewrite is_name_then_gt_before_lt. reflexivity.
Qed.

Lemma count_tokens_before_lt (kind : QString -> bool) (r : QString) :
  (forall l, kind (l ++ chr "<" :: r) = kind l) ->
  forall x,
    count_tokens kind (x ++ chr "<" :: r)
    = count_tokens kind x + count_tokens kind (chr "<" :: r).
Proof.
  intros Hk. induction x as [|c x IH]; [reflexivity|].
  cbn [app]. cbn [count_tokens]. rewrite Hk.
  change (count_tokens kind (x ++ chr "<" :: r)
          = count_tokens kind x + count_tokens kind (chr "<" :: r)) in IH.
  cbn [count_tokens] in IH. rewrite IH. lia.
Qed.

Lemma count_tokens_wrapped (kind : QString -> bool) (pre r x : QString)
  (k : nat) :
  (forall l, kind (l ++ chr "<" :: r) = kind l) ->
  (forall y, count_tokens kind (pre ++ y) = k + count_tokens kind y) ->
  count_tokens kind (pre ++ x ++ chr "<" :: r)
  = k + count_tokens kind x + count_tokens kind (chr "<" :: r).
Proof.
  intros Hk Hpre. rewrite Hpre, (count_tokens_before_lt kind r Hk). lia.
Qed.

Lemma opening_tokens_wrapped (pre r x : QString) (k : nat) :
  (forall y, count_tokens is_opening_token (pre ++ y)
             = k + count_tokens is_opening_token y) ->
  opening_tokens (pre ++ x ++ chr "<" :: r)
  = k + opening_tokens x + opening_tokens (chr "<" :: r).
Proof.
  intros H. unfold opening_tokens.
  apply count_tokens_wrapped; [|assumption].
  intros l. apply is_name_then_gt_before_lt.
Qed.

Lemma closing_tokens_wrapped (pre r x : QString) (k : nat) :
  (forall y, count_tokens is_closing_token (pre ++ y)
             = k + count_tokens is_closing_token y) ->
  closing_tokens (pre ++ x ++ chr "<" :: r)
  = k + closing_tokens x + closing_tokens (chr "<" :: r).
Proof.
  intros H. unfold closing_tokens.
  apply count_tokens_wrapped; [|assumption].
  intros l. apply is_closing_token_before_lt.
Qed.

Lemma wrapper_token_counts (n : nat) (pair : regex * QString) (x : QString) :
  nth_error REGEX_TO_WRAPPER n = Some pair ->
  opening_tokens (arg (snd pair) x) = 1 + opening_tokens x
  /\ closing_tokens (arg (snd pair) x)
     = (if is_code_rule n then 2 else 1) + closing_tokens x.
Proof.
  intros Hn. rewrite (wrapper_parts n pair x Hn).
  do 10 (destruct n as [|n];
         [ injection Hn as <-; cbn [snd is_code_rule Nat.eqb orb];
           match goal with
           | |- context [after_marker ?t] =>
               let post := eval vm_compute in (after_marker t) in
               let pre := eval vm_compute in (before_marker t) in
               change (after_marker t) with post;
               change (before_marker t) with pre
           end;
           change 60%N with (chr "<") at 2;
           split;
           [ rewrite (opening_tokens_wrapped _ _ x 1)
               by (intros y; reflexivity)
           | first [ rewrite (closing_tokens_wrapped _ _ x 0)
                       by (intros y; reflexivity) ] ];
           match goal with
           | |- context [opening_tokens (chr "<" :: ?r)] =>
               let v := eval vm_compute in (opening_tokens (chr "<" :: r)) in
               change (opening_tokens (chr "<" :: r)) with v
           | |- context [closing_tokens (chr "<" :: ?r)] =>
               let v := eval vm_compute in (closing_tokens (chr "<" :: r)) in
               change (closing_tokens (chr "<" :: r)) with v
           end; lia | ]).
  destruct n; discriminate.
Qed.

Lemma isTagIntersection_tokens (str : QString) :
  isTagIntersection str
  = negb (Nat.eqb (opening_tokens str) (closing_tokens str)).
Proof.
  unfold isTagIntersection. rewrite tagCounts_tokens. f_equal.
  destruct (Nat.eqb_spec (opening_tokens str) (closing_tokens str)) as [E|E].
  - rewrite E. apply Z.eqb_refl.
  - apply Z.eqb_neq. lia.
Qed.

(** X10: the tags of the rules for italic, bold, underline and strike-out
    are a balanced pair for the guard: a text wrapped by one of these rules
    is an intersection for [isTagIntersection] exactly when the text itself
    is. *)
Theorem plain_wrapper_keeps_balance (n : nat) (pair : regex * QString)
  (x : QString) :
  nth_error REGEX_TO_WRAPPER n = Some pair ->
  is_code_rule n = false ->
  isTagIntersection (arg (snd pair) x) = isTagIntersection x.
Proof.
  intros Hn Hc. rewrite !isTagIntersection_tokens.
  destruct (wrapper_token_counts n pair x Hn) as [Ho Hcl].
  rewrite Hc in Hcl. rewrite Ho, Hcl. reflexivity.
Qed.

Lemma plain_wrapper_keeps_balance_witness :
  isTagIntersection (arg (qs "<b>%1</b>") (qs "a <i>b"))
  = isTagIntersection (qs "a <i>b").
Proof.
  apply (plain_wrapper_keeps_balance 1
           (SINGLE_SIGN_PATTERN (chr "*"), qs "<b>%1</b>") (qs "a <i>b"));
    reflexivity.
Defined.

(** X11: the markup of the two code rules is not balanced for the guard:
    [font color=...] is no token, so the wrapper counts one opening token
    against two closing ones, and a text that is balanced for
    [isTagIntersection] is an intersection for it once wrapped as code. *)
Theorem code_wrapper_breaks_balance (n : nat) (pair : regex * QString)
  (x : QString) :
  nth_error REGEX_TO_WRAPPER n = Some pair ->
  is_code_rule n = true ->
  isTagIntersection x = false ->
  isTagIntersection (arg (snd pair) x) = true.
Proof.
  intros Hn Hc Hx. rewrite isTagIntersection_tokens in *.
  destruct (wrapper_token_counts n pair x Hn) as [Ho Hcl].
  rewrite Hc in Hcl. rewrite Ho, Hcl.
  apply negb_false_iff, Nat.eqb_eq in Hx.
  apply negb_true_iff, Nat.eqb_neq. lia.
Qed.

Lemma code_wrapper_breaks_balance_witness :
  isTagIntersection
    (arg (qs "<font color=#595959><code>%1</code></font>") (qs "x = 1"))
  = true.
Proof.
  apply (code_wrapper_breaks_balance 4
           (SINGLE_SIGN_PATTERN (chr "`"),
            qs "<font color=#595959><code>%1</code></font>") (qs "x = 1"));
    reflexivity.
Defined.

(** ** How much a pass of [applyMarkdown] adds *)

Lemma wrapper_length_exact (n : nat) (pair : regex * QString) (a : QString) :
  nth_error REGEX_TO_WRAPPER n = Some pair ->
  length (arg (snd pair) a) = length a + (length (snd pair) - 2).
Proof.
  intros Hn. rewrite (wrapper_parts n pair a Hn). rewrite !length_app.
  do 10 (destruct n as [|n];
         [ injection Hn as <-; cbn [snd];
           match goal with
           | |- context [after_marker ?t] =>
               let post := eval vm_compute in (length (after_marker t)) in
               let pre := eval vm_compute in (length (before_marker t)) in
               let all := eval vm_compute in (length t) in
               change (length (after_marker t)) with post;
               change (length (before_marker t)) with pre;
               change (length t) with all
           end; lia | ]).
  destruct n; discriminate.
Qed.

Lemma markdown_splice_length (n : nat) (pair : regex * QString)
  (s : QString) (show : bool) :
  nth_error REGEX_TO_WRAPPER n = Some pair ->
  forall ms e,
    e <= length s ->
    in_order e (length s) ms ->
    (forall m, In m ms ->
               sem (fst pair) s (m_start m) [] (m_end m) (m_caps m)) ->
    length (splice s e (map (markdownEdit s (snd pair) show) ms)) + e
    = length s + length ms * markdown_gain n pair show.
Proof.
  intros Hn. induction ms as [|m ms IH]; intros e He Hord Hsem;
    cbn [map splice length].
  - rewrite length_skipn. lia.
  - cbn [in_order] in Hord. destruct Hord as (H1 & H2 & H3 & Hord).
    cbn [markdownEdit]. rewrite !length_app, mid_length by lia.
    rewrite (wrapper_length_exact n pair _ Hn).
    pose proof (wrapper_length n pair [] Hn) as Hw.
    rewrite (wrapper_length_exact n pair _ Hn) in Hw. cbn [length] in Hw.
    specialize (IH (m_end m) H3 Hord (fun m' Hm' => Hsem m' (or_intror Hm'))).
    pose proof (@rule_delimited n pair _ _ _ _ Hn (Hsem m (or_introl eq_refl)))
      as Hd.
    assert (Hdl : delimiter_length n <= 3).
    { unfold delimiter_length.
      destruct (n <? 5); [lia|]. destruct (n <? 9); lia. }
    assert (Hg : length (snd pair) - 2
                 = markdown_gain n pair show
                   + (if show then 0 else 2 * delimiter_length n)).
    { unfold markdown_gain. destruct show; lia. }
    rewrite Hg. rewrite Nat.mul_succ_l.
    generalize dependent (markdown_gain n pair show). intros g IH Hg.
    destruct show; cbn [capturedIndex negb].
    + pose proof (captured_whole_length s m (conj H2 H3)) as Hc.
      unfold size, capturedLength in Hc. lia.
    + pose proof (captured_group_length _ s m H3 Hd) as Hc.
      destruct Hd as (_ & _ & _ & Hlt).
      unfold size, capturedLength in Hc. lia.
Qed.

(** X12: a pass of [applyMarkdown] makes the text longer by the same amount
    for every match that passes the guard, the length of the tags of the
    rule, less that of the two delimiters when the formatting symbols are
    dropped; matches that the guard rejects add nothing. *)
Theorem markdownPass_growth (n : nat) (pair : regex * QString)
  (result : QString) (showFormattingSymbols : bool) :
  nth_error REGEX_TO_WRAPPER n = Some pair ->
  length (markdownPass showFormattingSymbols result pair)
  = length result
    + length (filter (accepted result showFormattingSymbols)
                (globalMatch (fst pair) result))
      * markdown_gain n pair showFormattingSymbols.
Proof.
  intros Hn. rewrite markdownPass_splice.
  pose proof (markdown_splice_length n pair result showFormattingSymbols Hn
                (filter (accepted result showFormattingSymbols)
                   (globalMatch (fst pair) result)) 0 (Nat.le_0_l _)) as H.
  rewrite <- H; [lia| |].
  - apply in_order_filter. apply globalMatch_in_order.
  - intros m Hm. apply filter_In in Hm. destruct Hm as [Hm _].
    apply globalMatch_sem in Hm. tauto.
Qed.

Lemma markdownPass_growth_witness :
  length (markdownPass false (qs "a *b* *c* d")
            (SINGLE_SIGN_PATTERN (chr "*"), qs "<b>%1</b>"))
  = length (qs "a *b* *c* d")
    + length (filter (accepted (qs "a *b* *c* d") false)
                (globalMatch
                   (fst (SINGLE_SIGN_PATTERN (chr "*"), qs "<b>%1</b>"))
                   (qs "a *b* *c* d")))
      * markdown_gain 1 (SINGLE_SIGN_PATTERN (chr "*"), qs "<b>%1</b>") false.
Proof.
  apply (markdownPass_growth 1
           (SINGLE_SIGN_PATTERN (chr "*"), qs "<b>%1</b>")
           (qs "a *b* *c* d") false).
  reflexivity.
Defined.

(** ** Where a URL starts *)

Lemma sem_lit_first (s : QString) (a : QChar) (l : QString) (i : nat)
  (c : caps) (j : nat) (c' : caps) :
  sem (lit_chars (a :: l)) s i c j c' -> char_at s i = Some a.
Proof.
  cbn [lit_chars sem]. intros (m & cm & (ch & Hch & Heq & _) & _).
  apply N.eqb_eq in Heq. subst. assumption.
Qed.

Lemma word_boundary_before (s : QString) (i : nat) (ch : QChar) :
  word_boundary s i = true ->
  char_at s i = Some ch -> is_word ch = true ->
  word_before s i = false.
Proof.
  unfold word_boundary, word_here. intros Hb Hch Hw.
  rewrite Hch, Hw in Hb. destruct (word_before s i); [discriminate|reflexivity].
Qed.

Lemma URL_PATTERNS_start (exp : regex) (s : QString) (i : nat) (j : nat)
  (c' : caps) :
  In exp URL_PATTERNS ->
  sem exp s i [] j c' ->
  word_before s i = false.
Proof.
  unfold URL_PATTERNS. intros Hin H.
  destruct Hin as [<-|[<-|[<-|[<-|[<-|[]]]]]]; cbn [sem] in H;
    destruct H as (m1 & c1 & (Hb & -> & ->) & m2 & c2 & H & _).
  - destruct H as (c3 & [H|H] & _).
    + destruct H as (m3 & c4 & H & _).
      apply (sem_lit_first s (chr "w") (qs "ww")) in H.
      exact (word_boundary_before s i _ Hb H eq_refl).
    + destruct H as (m3 & c4 & (c5 & [H|H] & _) & _).
      * destruct H as (c6 & (m4 & c7 & H & _) & _).
        apply (sem_lit_first s (chr "h") (qs "ttp")) in H.
        exact (word_boundary_before s i _ Hb H eq_refl).
      * apply (sem_lit_first s (chr "f") (qs "tp")) in H.
        exact (word_boundary_before s i _ Hb H eq_refl).
  - destruct H as (c3 & [H|H] & _).
    + apply (sem_lit_first s (chr "f") (qs "ile")) in H.
      exact (word_boundary_before s i _ Hb H eq_refl).
    + apply (sem_lit_first s (chr "s") (qs "mb")) in H.
      exact (word_boundary_before s i _ Hb H eq_refl).
  - apply (sem_lit_first s (chr "t") (qs "ox:")) in H.
    exact (word_boundary_before s i _ Hb H eq_refl).
  - apply (sem_lit_first s (chr "m") (qs "ailto:")) in H.
    exact (word_boundary_before s i _ Hb H eq_refl).
  - apply (sem_lit_first s (chr "t") (qs "ox:")) in H.
    exact (word_boundary_before s i _ Hb H eq_refl).
Qed.

(** X13: no match of any pattern of [highlightURL] has one of the
    characters [A-Z], [a-z], [0-9] or [_] right before it: the [\b] of the
    URL patterns, compiled without the Unicode option, tells word
    characters by this ASCII class ([is_word]) only. *)
Theorem url_starts_a_word (exp : regex) (s : QString) (m : Match) :
  In exp URL_PATTERNS ->
  In m (globalMatch exp s) ->
  word_before s (m_start m) = false.
Proof.
  intros Hin Hm. apply globalMatch_sem in Hm. destruct Hm as [_ Hs].
  exact (URL_PATTERNS_start exp s _ _ _ Hin Hs).
Qed.

Lemma url_starts_a_word_witness :
  word_before (qs "see www.a.com") 4 = false.
Proof.
  apply (url_starts_a_word (nth 0 URL_PATTERNS Eps) (qs "see www.a.com")
           (mkMatch 4 13 [(1, (4, 8))])).
  - left. reflexivity.
  - vm_compute. left. reflexivity.
Defined.

(** X14: whatever the message, a match of the fixed-length Tox pattern is
    [tox:] and 76 more characters, none of which is a digit: the class of
    the pattern holds the letters and the backslash only. *)
Theorem tox_id_match_has_no_digit (s : QString) (m : Match) :
  In m (globalMatch (nth 2 URL_PATTERNS Eps) s) ->
  m_end m = m_start m + 80
  /\ forall x, m_start m + 4 <= x < m_end m ->
               exists ch, char_at s x = Some ch /\ is_digit ch = false.
Proof. apply tox_id_pattern_has_no_digit. Qed.

Lemma tox_id_match_has_no_digit_witness :
  4 + 80 = 4 + 80
  /\ forall x, 4 + 4 <= x < 4 + 80 ->
       exists ch,
         char_at
           (qs "add tox:ABCDEFGHIJKLMNOPQRSTUVWXYZabcdefghijklmnopqrstuvwxyzABCDEFGHIJKLMNOPQRSTUVWX")
           x = Some ch
         /\ is_digit ch = false.
Proof.
  apply (tox_id_match_has_no_digit
           (qs "add tox:ABCDEFGHIJKLMNOPQRSTUVWXYZabcdefghijklmnopqrstuvwxyzABCDEFGHIJKLMNOPQRSTUVWX")
           (mkMatch 4 84 [])).
  vm_compute. left. reflexivity.
Defined.

(** A letter outside ASCII is no word character for the URL patterns: the
    URL after it is taken. *)
Lemma url_after_letter_outside_ascii :
  word_before (233%N :: qs "www.a.com") 1 = false
  /\ highlightURL (233%N :: qs "www.a.com")
     = 233%N :: arg HREF_WRAPPER (qs "www.a.com").
Proof. vm_compute. split; reflexivity. Qed.

(** ** Matches that the guard lets through *)

Lemma splice_holds_edit (s : QString) (st en : nat) (w : QString) :
  forall edits e,
    In (st, en, w) edits ->
    exists before rest,
      splice s e edits = before ++ w ++ splice s en rest.
Proof.
  induction edits as [|[[st0 en0] w0] edits IH]; intros e Hin;
    [contradiction|].
  cbn [splice]. destruct Hin as [Heq|Hin].
  - injection Heq as -> -> ->.
    exists (mid s e (st - e)), edits. reflexivity.
  - destruct (IH en0 Hin) as (before & rest & Hs).
    exists (mid s e (st0 - e) ++ w0 ++ before), rest.
    rewrite Hs. rewrite <- !app_assoc. reflexivity.
Qed.

(** C10: on a string without [<], or without [>], [isTagIntersection]
    returns false; so a match of a rule of [applyMarkdown] whose captured
    text is such a string passes the guard and is replaced: its span and
    its wrapped text are among the replacements that make up the result of
    the pass, and the wrapped text stands in that result, followed by what
    the pass makes of the text after the match. *)
Theorem no_angle_bracket_no_intersection (str : QString) :
  ~ In (chr "<") str \/ ~ In (chr ">") str ->
  isTagIntersection str = false
  /\ forall pair showFormattingSymbols result m,
       In m (globalMatch (fst pair) result) ->
       captured result m (capturedIndex showFormattingSymbols) = str ->
       accepted result showFormattingSymbols m = true
       /\ In (m_start m, m_end m, arg (snd pair) str)
            (map (markdownEdit result (snd pair) showFormattingSymbols)
               (filter (accepted result showFormattingSymbols)
                  (globalMatch (fst pair) result)))
       /\ markdownPass showFormattingSymbols result pair
          = splice result 0
              (map (markdownEdit result (snd pair) showFormattingSymbols)
                 (filter (accepted result showFormattingSymbols)
                    (globalMatch (fst pair) result)))
       /\ exists before rest,
            markdownPass showFormattingSymbols result pair
            = before ++ arg (snd pair) str ++ splice result (m_end m) rest.
Proof.
  intros H. pose proof (isTagIntersection_no_brackets str H) as Hno.
  split; [assumption|].
  intros pair show result m Hm Hcap.
  assert (Hacc : accepted result show m = true)
    by (unfold accepted; rewrite Hcap, Hno; reflexivity).
  assert (Hedit : In (m_start m, m_end m, arg (snd pair) str)
                    (map (markdownEdit result (snd pair) show)
                       (filter (accepted result show)
                          (globalMatch (fst pair) result)))).
  { apply in_map_iff. exists m. split.
    - unfold markdownEdit. rewrite Hcap. reflexivity.
    - apply filter_In. split; assumption. }
  split; [assumption|]. split; [assumption|].
  split; [apply markdownPass_splice|].
  rewrite markdownPass_splice.
  apply (splice_holds_edit result (m_start m) (m_end m)
           (arg (snd pair) str)).
  assumption.
Qed.

Lemma no_angle_bracket_no_intersection_witness :
  isTagIntersection (qs "b > c") = false
  /\ accepted (qs "a *b > c* d") false (mkMatch 2 9 [(1, (3, 8))]) = true
  /\ markdownPass false (qs "a *b > c* d")
       (SINGLE_SIGN_PATTERN (chr "*"), qs "<b>%1</b>")
     = qs "a <b>b > c</b> d".
Proof.
  assert (H : ~ In (chr "<") (qs "b > c") \/ ~ In (chr ">") (qs "b > c")).
  { left. vm_compute. intros H.
    repeat (destruct H as [H|H]; [discriminate H|]). exact H. }
  split; [exact (proj1 (no_angle_bracket_no_intersection (qs "b > c") H))|].
  destruct (proj2 (no_angle_bracket_no_intersection (qs "b > c") H)
              (SINGLE_SIGN_PATTERN (chr "*"), qs "<b>%1</b>") false
              (qs "a *b > c* d") (mkMatch 2 9 [(1, (3, 8))]))
    as (Hacc & _ & Hpass & _).
  - vm_compute. left. reflexivity.
  - reflexivity.
  - split; [exact Hacc|]. rewrite Hpass. vm_compute. reflexivity.
Defined.
